(** * Recipe: a registry of application variables persisted to a binary file

    Shallow embedding of [rcp::Recipe] (src/Persistence/src/recipe.cpp and
    include/recipe.hpp) and the properties of its registry, its path
    handling, its life cycle and its save / load codec.

    Modelling conventions
    - [size_t] is a 64-bit unsigned integer: a value of [N] below [2^64];
      additions wrap ([size_add]).  Its object representation, as written by
      [file.write((char* )&x, sizeof(x))], is 8 bytes, least significant
      first (the byte order of the hosts the library is built on).
    - [char] is [Byte.byte]; a [std::string] is a Rocq [string].
    - [char *] is an address ([N]) into a byte-addressed memory; the memory
      is a finite map and a cell outside it reads as zero.
    - [std::unordered_map<std::string, RecipeItem*>] is a [gmap]; the heap
      cell behind each [RecipeItem*] is owned by the map alone, so the map
      holds the item itself.  The order in which the container is iterated
      is unspecified: it is the parameter [iteration_order].
    - Streams behave as on POSIX hosts (text and binary mode coincide).
      The file system is the collaborator [FileSystem].
    - In [load_recipe] a read that meets the end of the file stores the
      bytes there are and sets [eofbit] and [failbit]; the reads after it
      read nothing, the body of the loop goes on, and the loop ends at its
      next test of [eof].  What an object holds that was never written is
      a parameter of the model ([Uninitialized]); [operator new] is taken
      to succeed.  A stream that failed to open never reports [eof]: the
      loop does not end, and the model stops with [Undef]. *)

From Stdlib.Strings Require Import Byte Ascii String.
From Stdlib Require Import NArith Lia.
From stdpp Require Import base option list gmap strings fin_maps.

Local Open Scope N_scope.

(** ** Bytes and the representation of [size_t] *)

#[global] Instance byte_inhabited : Inhabited byte := populate x00.

Definition byte_of_N (n : N) : byte :=
  match Byte.of_N n with Some b => b | None => x00 end.

Definition SIZE_MAX1 : N := 2 ^ 64.

(** [a + b] on [size_t]. *)
Definition size_add (a b : N) : N := (a + b) mod SIZE_MAX1.

Fixpoint le_encode (width : nat) (v : N) : list byte :=
  match width with
  | O => []
  | S w => byte_of_N (v mod 256) :: le_encode w (v / 256)
  end.

Fixpoint le_decode (bs : list byte) : N :=
  match bs with
  | [] => 0
  | b :: bs' => Byte.to_N b + 256 * le_decode bs'
  end.

(** [sizeof(size_t)] *)
Definition sizeof_size_t : nat := 8.

(** The bytes behind [(char* )&x] for [size_t x]. *)
Definition size_t_bytes (x : N) : list byte := le_encode sizeof_size_t x.

(** ** Strings *)

(** [s.length()] *)
Definition str_length (s : string) : N := N.of_nat (String.length s).

(** [s.front()]; only called on a non-empty string. *)
Definition front (s : string) : ascii :=
  match s with
  | EmptyString => zero
  | String c _ => c
  end.

(** [s.back()]; only called on a non-empty string. *)
Fixpoint back (s : string) : ascii :=
  match s with
  | EmptyString => zero
  | String c EmptyString => c
  | String _ s' => back s'
  end.

Definition slash : ascii := Eval cbv in ascii_of_nat 47.
Definition dot : ascii := Eval cbv in ascii_of_nat 46.

(** ** Memory *)

Abbreviation memory := (gmap N byte).

(** [n] bytes starting at [ptr]. *)
Fixpoint read_bytes (mem : memory) (ptr : N) (n : nat) : list byte :=
  match n with
  | O => []
  | S n' => mem !!! ptr :: read_bytes mem (N.succ ptr) n'
  end.

(** [for (i = 0; i < size; i++) ptr[i] = data[i];] *)
Fixpoint write_bytes (mem : memory) (ptr : N) (data : list byte) : memory :=
  match data with
  | [] => mem
  | b :: data' => write_bytes (<[ptr := b]> mem) (N.succ ptr) data'
  end.

(** ** The data model *)

Record RecipeItem := mkItem { ptr : N; size : N }.

Record Recipe := mkRecipe {
  _folder : string;
  _extension : string;
  _name : string;
  _map : gmap string RecipeItem;
  _init : bool
}.

Definition with_init (r : Recipe) (b : bool) : Recipe :=
  mkRecipe (_folder r) (_extension r) (_name r) (_map r) b.

Definition with_map (r : Recipe) (m : gmap string RecipeItem) : Recipe :=
  mkRecipe (_folder r) (_extension r) (_name r) m (_init r).

(** ** Collaborators *)

(** The file system, as the class uses it. *)
Class FileSystem (FS : Type) := {
  (** [std::filesystem::exists(path)] *)
  fs_exists : FS → string → bool;
  (** [create_directories(path.parent_path()); std::ofstream file(path);
      file.close();] The flag is [false] when [filesystem_error] is thrown. *)
  fs_create : FS → string → bool * FS;
  (** [std::ofstream]: open [path], write the bytes, close. *)
  fs_write : FS → string → list byte → FS;
  (** [std::ifstream]: open [path]; [None] when the stream fails to open. *)
  fs_read : FS → string → option (list byte)
}.

(** Iteration order of the unordered container. *)
Class IterationOrder := {
  iteration_order : gmap string RecipeItem → list (string * RecipeItem);
  iteration_order_perm : ∀ m, iteration_order m ≡ₚ map_to_list m
}.

(** ** Construction, registry and path *)

(** [Recipe::Recipe()] *)
Definition Recipe0 : Recipe :=
  mkRecipe EmptyString ".rcp" EmptyString ∅ false.

(** [Recipe::Recipe(name, folder, extension)] *)
Definition Recipe3 (name folder extension : string) : Recipe :=
  mkRecipe folder extension name ∅ false.

(** [Recipe::stop] *)
Definition stop (r : Recipe) : Recipe := with_init r false.

(** [Recipe::add_variable] *)
Definition add_variable (r : Recipe) (id : string) (var : N) (sz : N)
  : bool * Recipe :=
  if decide (is_Some (_map r !! id)) then (false, r)
  else
    let item := mkItem var sz in
    (true, with_map r (<[id := item]> (_map r))).

(** [Recipe::remove_variable] *)
Definition remove_variable (r : Recipe) (id : string) : bool * Recipe :=
  if decide (_map r !! id = None) then (false, r)
  else (true, with_map r (delete id (_map r))).

(** [Recipe::is_init] *)
Definition is_init (r : Recipe) : bool := _init r.

(** [Recipe::get_path] *)
Definition get_path (r : Recipe) : string :=
  _folder r +:+ _name r +:+ _extension r.

(** [Recipe::set_name] *)
Definition set_name (r : Recipe) (name : string) : Recipe :=
  stop (mkRecipe (_folder r) (_extension r) name (_map r) (_init r)).

(** [Recipe::set_folder] *)
Definition set_folder (r : Recipe) (folder : string) : Recipe :=
  let folder' :=
    folder +:+
    (if negb (String.eqb folder EmptyString) && negb (Ascii.eqb (back folder) slash)
     then "/" else EmptyString) in
  stop (mkRecipe folder' (_extension r) (_name r) (_map r) (_init r)).

(** [Recipe::set_extension] *)
Definition set_extension (r : Recipe) (extension : string) : Recipe :=
  let extension' :=
    (if negb (String.eqb extension EmptyString)
        && negb (Ascii.eqb (front extension) dot)
     then "." else EmptyString) +:+ extension in
  stop (mkRecipe (_folder r) extension' (_name r) (_map r) (_init r)).

(** ** The world a store lives in *)

Record World (FS : Type) := mkWorld {
  self : Recipe;       (* the object *)
  heap : memory;       (* the application's variables *)
  disk : FS            (* the file system *)
}.
Arguments mkWorld {FS}.
Arguments self {FS}.
Arguments heap {FS}.
Arguments disk {FS}.

Definition with_self {FS} (w : World FS) (r : Recipe) : World FS :=
  mkWorld r (heap w) (disk w).

(** ** Life cycle *)

Section Lifecycle.
Context {FS : Type} `{FileSystem FS}.

(** [Recipe::init] *)
Definition init (w : World FS) : bool * World FS :=
  let r := self w in
  if String.eqb (_name r) EmptyString then (false, w)
  else
    let path_string := get_path r in
    if fs_exists (disk w) path_string then
      (true, mkWorld (with_init r true) (heap w) (disk w))
    else
      match fs_create (disk w) path_string with
      | (true, d) => (true, mkWorld (with_init r true) (heap w) d)
      | (false, d) => (false, mkWorld (with_init r false) (heap w) d)
      end.
End Lifecycle.

(** ** Save codec *)

(** The bytes written for one container element, the body of the loop of
    [save_recipe].  [&var.first.front()] is the address of the buffer of
    the identifier, also when the identifier is empty and no byte of it is
    written. *)
Definition save_entry (mem : memory) (var : string * RecipeItem) : list byte :=
  let padding := x00 in
  let id_size := str_length var.1 in
  size_t_bytes id_size
  ++ list_byte_of_string var.1
  ++ size_t_bytes (size var.2)
  ++ read_bytes mem (ptr var.2) (N.to_nat (size var.2))
  ++ (let num_bytes := size_add id_size (size var.2) in
      if negb (num_bytes mod 2 =? 0) then [padding] else []).

(** What the loop of [save_recipe] writes for the elements [vars]. *)
Definition save_entries (mem : memory) (vars : list (string * RecipeItem))
  : list byte :=
  concat (save_entry mem <$> vars).

Section Save.
Context {FS : Type} `{FileSystem FS} `{IterationOrder}.

(** [Recipe::save_recipe] *)
Definition save_recipe (w : World FS) : bool * World FS :=
  if negb (_init (self w)) then (false, w)
  else
    (true,
     mkWorld (self w) (heap w)
       (fs_write (disk w) (get_path (self w))
          (save_entries (heap w) (iteration_order (_map (self w)))))).
End Save.

(** ** Load codec *)

(** What an object holds that was never written: the variables [size] and
    [character] of [load_recipe] before their first read, and the array
    [new char[size]] gives in each turn of the loop, byte by byte. *)
Class Uninitialized := {
  uninit_size : N;
  uninit_char : byte;
  uninit_array : nat → nat → byte
}.

(** An open [std::ifstream]: what is left of the file while the stream is
    good, or the state after a read that met the end of the file, with
    [eofbit] and [failbit] set. *)
Inductive ifstream :=
  | Good (rest : list byte)
  | Failed.

(** Reading from the stream. *)
Definition istream (A : Type) : Type := ifstream → A * ifstream.

Definition iret {A} (a : A) : istream A := λ st, (a, st).

Definition ibind {A B} (c : istream A) (k : A → istream B) : istream B :=
  λ st, let '(a, st') := c st in k a st'.

Notation "x ←ᵢ c ; k" := (ibind c (λ x, k))
  (at level 100, c at next level, right associativity).

(** [file.read(buf, n)] for a buffer [buf] of [n] bytes; the result is
    what the buffer holds afterwards.  A stream that is not good reads
    nothing; a read that meets the end of the file stores the bytes there
    are, leaves the rest of the buffer as it is, and sets [eofbit] and
    [failbit]. *)
Definition file_read (buf : list byte) : istream (list byte) :=
  λ st, match st with
        | Failed => (buf, Failed)
        | Good s =>
            if decide (length buf ≤ length s)%nat
            then (take (length buf) s, Good (drop (length buf) s))
            else (s ++ drop (length s) buf, Failed)
        end.

(** [file.read((char* )&size, sizeof(size))] *)
Definition read_size_t (size : N) : istream N :=
  bs ←ᵢ file_read (size_t_bytes size) ; iret (le_decode bs).

(** [file.read(&character, 1)] *)
Definition read_char (character : byte) : istream byte :=
  bs ←ᵢ file_read [character] ; iret (default character (head bs)).

(** [for (i = 0; i < size; i++) { file.read(&character, 1); id += character; }]
    The result is [id] and the last value of [character]. *)
Fixpoint read_id (n : nat) (character : byte) : istream (list byte * byte) :=
  match n with
  | O => iret ([], character)
  | S n' =>
      character ←ᵢ read_char character ;
      r ←ᵢ read_id n' character ;
      iret (character :: r.1, r.2)
  end.

(** [new char[size]] in the turn [turn] of the loop. *)
Definition new_char `{Uninitialized} (turn : nat) (size : N) : list byte :=
  uninit_array turn <$> seq 0 (N.to_nat size).

(** The first half of the body of the loop of [load_recipe]: one entry is
    read; the result is [id], the last value of [size], [data], and the
    last value of [character]. *)
Definition read_entry `{Uninitialized} (turn : nat) (character : byte)
    (size : N) : istream (string * N * list byte * byte) :=
  let num_bytes := 0 in
  size ←ᵢ read_size_t size ;
  r ←ᵢ read_id (N.to_nat size) character ;
  let id := r.1 in
  let character := r.2 in
  let num_bytes := size_add num_bytes size in
  size ←ᵢ read_size_t size ;
  data ←ᵢ file_read (new_char turn size) ;
  let num_bytes := size_add num_bytes size in
  character ←ᵢ (if negb (num_bytes mod 2 =? 0)
                then read_char character else iret character) ;
  iret (string_of_list_byte id, size, data, character).

(** The second half of the body: the entry is compared with the registry
    and copied to the variable. *)
Definition store_entry (map : gmap string RecipeItem)
    (id : string) (sz : N) (data : list byte) (mem : memory) : memory :=
  match map !! id with
  | None => mem
  | Some item =>
      if negb (size item =? sz) then mem
      else write_bytes mem (ptr item) data
  end.

Inductive load_result :=
  | Loaded (mem : memory)   (* the loop ended *)
  | OutOfFuel.              (* never the case in [load_recipe] *)

(** [while (file.peek(), !file.eof()) { ... }], from the turn [turn] on,
    with the values [character] and [size] have at that time: [peek] sets
    [eofbit] when nothing is left of the file, and [eofbit] stays set
    after a read that met the end of the file. *)
Fixpoint load_turns `{Uninitialized} (fuel turn : nat) (character : byte)
    (size : N) (map : gmap string RecipeItem) (file : ifstream)
    (mem : memory) : load_result :=
  match file with
  | Failed => Loaded mem
  | Good [] => Loaded mem
  | Good (_ :: _) =>
      match fuel with
      | O => OutOfFuel
      | S fuel' =>
          let '(id, size, data, character, file) :=
            read_entry turn character size file in
          load_turns fuel' (S turn) character size map file
            (store_entry map id size data mem)
      end
  end.

(** The loop of [load_recipe] on a file that was just opened. *)
Definition load_loop `{Uninitialized} (fuel : nat)
    (map : gmap string RecipeItem) (file : list byte) (mem : memory)
  : load_result :=
  load_turns fuel 0 uninit_char uninit_size map (Good file) mem.

Inductive outcome (A : Type) :=
  | Returns (a : A)
  | Undef.
Arguments Returns {A}.
Arguments Undef {A}.

Section Load.
Context {FS : Type} `{FileSystem FS} `{Uninitialized}.

(** [Recipe::load_recipe]; every turn of the loop takes at least one byte
    from the file, so its length bounds the number of turns.  A stream
    that failed to open has [failbit] set and never reports [eof]: the
    loop does not end. *)
Definition load_recipe (w : World FS) : outcome (bool * World FS) :=
  if negb (_init (self w)) then Returns (false, w)
  else
    match fs_read (disk w) (get_path (self w)) with
    | None => Undef
    | Some file =>
        match load_loop (length file) (_map (self w)) file (heap w) with
        | Loaded mem => Returns (true, mkWorld (self w) mem (disk w))
        | OutOfFuel => Undef
        end
    end.
End Load.

(** ** A file system and an iteration order to run the model on *)

(** Regular files only, every path writable. *)
#[global] Instance map_fs : FileSystem (gmap string (list byte)) := {|
  fs_exists d p := bool_decide (is_Some (d !! p));
  fs_create d p := (true, <[p := []]> d);
  fs_write d p c := <[p := c]> d;
  fs_read d p := d !! p
|}.

#[global] Instance key_order : IterationOrder := {|
  iteration_order := map_to_list;
  iteration_order_perm := λ m, Permutation_refl (map_to_list m)
|}.

(** Memory that holds zeros where nothing was written. *)
#[global] Instance zero_uninit : Uninitialized := {|
  uninit_size := 0;
  uninit_char := x00;
  uninit_array := λ _ _, x00
|}.

(** ** The record format *)

(** One entry of a record: [idLen id valLen val pad?], the padding byte
    being there iff [idLen + valLen] is odd. *)
Definition entry_bytes (id val : list byte) (pad : byte) : list byte :=
  size_t_bytes (N.of_nat (length id)) ++ id
  ++ size_t_bytes (N.of_nat (length val)) ++ val
  ++ (if N.odd (N.of_nat (length id) + N.of_nat (length val)) then [pad] else []).

(** A well-formed record: entries one after the other. *)
Definition file_bytes (es : list (list byte * list byte * byte)) : list byte :=
  concat ((λ e, entry_bytes e.1.1 e.1.2 e.2) <$> es).

(** Both lengths of an entry fit [size_t]. *)
Definition fits_size_t (e : list byte * list byte * byte) : Prop :=
  N.of_nat (length e.1.1) < SIZE_MAX1 ∧ N.of_nat (length e.1.2) < SIZE_MAX1.

(** What the loop of [load_recipe] does with the entries of a record. *)
Definition store_entries (map : gmap string RecipeItem)
    (es : list (list byte * list byte * byte)) (mem : memory) : memory :=
  foldl (λ m e,
           store_entry map (string_of_list_byte e.1.1)
             (N.of_nat (length e.1.2)) e.1.2 m) mem es.

(** The entries the loop of [load_recipe] reads from a file, with the
    reads of [load_turns]. *)
Fixpoint parse_turns `{Uninitialized} (fuel turn : nat) (character : byte)
    (size : N) (file : ifstream) : option (list (string * N * list byte)) :=
  match file with
  | Failed => Some []
  | Good [] => Some []
  | Good (_ :: _) =>
      match fuel with
      | O => None
      | S fuel' =>
          let '(id, size, data, character, file) :=
            read_entry turn character size file in
          ((id, size, data) ::.)
            <$> parse_turns fuel' (S turn) character size file
      end
  end.

Definition parse_entries `{Uninitialized} (fuel : nat) (file : list byte)
  : option (list (string * N * list byte)) :=
  parse_turns fuel 0 uninit_char uninit_size (Good file).

(** The entries of a file, and their identifiers. *)
Definition file_entries `{Uninitialized} (file : list byte)
  : list (string * N * list byte) :=
  default [] (parse_entries (length file) file).


(** The entries of the file of a store; none if the file cannot be opened. *)
Definition entries_on_disk {FS : Type} `{FileSystem FS} `{Uninitialized}
    (w : World FS) : list (string * N * list byte) :=
  match fs_read (disk w) (get_path (self w)) with
  | Some file => file_entries file
  | None => []
  end.


(** The entry written for a container element, as an entry of a record. *)
Definition saved_entry (mem : memory) (var : string * RecipeItem)
  : list byte * list byte * byte :=
  (list_byte_of_string var.1,
   read_bytes mem (ptr var.2) (N.to_nat (size var.2)), x00).

(** The addresses of a registered variable. *)
Definition in_region (item : RecipeItem) (a : N) : Prop :=
  ptr item ≤ a < ptr item + size item.

(** The content of a registered variable. *)
Definition content (mem : memory) (item : RecipeItem) : list byte :=
  read_bytes mem (ptr item) (N.to_nat (size item)).

(** Two registries describe memory of identical layout: the same
    identifiers with the same sizes, and two cells of the second coincide
    only where the cells of the first do. *)
Definition same_layout (m1 m2 : gmap string RecipeItem) : Prop :=
  (∀ id, size <$> m1 !! id = size <$> m2 !! id) ∧
  (∀ id id' i1 i1' i2 i2' k l,
     m1 !! id = Some i1 → m1 !! id' = Some i1' →
     m2 !! id = Some i2 → m2 !! id' = Some i2' →
     k < size i2 → l < size i2' →
     ptr i2 + k = ptr i2' + l → ptr i1 + k = ptr i1' + l).

(** Every identifier and every size of the registry fits [size_t]. *)
Definition registry_fits (m : gmap string RecipeItem) : Prop :=
  ∀ id item, m !! id = Some item →
    str_length id < SIZE_MAX1 ∧ size item < SIZE_MAX1.

(** ** Sequences of calls *)

Inductive call :=
  | CInit | CStop
  | CAddVariable (id : string) (var : N) (sz : N)
  | CRemoveVariable (id : string)
  | CLoadRecipe | CSaveRecipe
  | CIsInit | CGetPath
  | CSetName (name : string)
  | CSetFolder (folder : string)
  | CSetExtension (extension : string).

Inductive value :=
  | VBool (b : bool)
  | VString (s : string)
  | VVoid.

Section Calls.
Context {FS : Type} `{FileSystem FS} `{IterationOrder} `{Uninitialized}.

Definition step (c : call) (w : World FS) : outcome (value * World FS) :=
  match c with
  | CInit => let '(b, w') := init w in Returns (VBool b, w')
  | CStop => Returns (VVoid, with_self w (stop (self w)))
  | CAddVariable id var sz =>
      let '(b, r) := add_variable (self w) id var sz in
      Returns (VBool b, with_self w r)
  | CRemoveVariable id =>
      let '(b, r) := remove_variable (self w) id in
      Returns (VBool b, with_self w r)
  | CLoadRecipe =>
      match load_recipe w with
      | Returns (b, w') => Returns (VBool b, w')
      | Undef => Undef
      end
  | CSaveRecipe => let '(b, w') := save_recipe w in Returns (VBool b, w')
  | CIsInit => Returns (VBool (is_init (self w)), w)
  | CGetPath => Returns (VString (get_path (self w)), w)
  | CSetName name => Returns (VVoid, with_self w (set_name (self w) name))
  | CSetFolder folder =>
      Returns (VVoid, with_self w (set_folder (self w) folder))
  | CSetExtension extension =>
      Returns (VVoid, with_self w (set_extension (self w) extension))
  end.

(** The values returned by a sequence of calls, up to its end or to the
    first call whose behaviour is undefined. *)
Fixpoint run (cs : list call) (w : World FS) : list value :=
  match cs with
  | [] => []
  | c :: cs' =>
      match step c w with
      | Returns (v, w') => v :: run cs' w'
      | Undef => []
      end
  end.
End Calls.

(** ** Counting separators *)

(** The number of characters [c] a string begins with. *)
Fixpoint leading (c : ascii) (s : string) : nat :=
  match s with
  | EmptyString => 0
  | String c' s' => if Ascii.eqb c' c then S (leading c s') else 0
  end.

(** The number of characters [c] a string ends with. *)
Fixpoint trailing (c : ascii) (s : string) : nat :=
  match s with
  | EmptyString => 0
  | String c' s' =>
      if Ascii.eqb c' c && (trailing c s' =? String.length s')%nat
      then S (trailing c s') else trailing c s'
  end.

(** ** Running calls to the end *)

Section Exec.
Context {FS : Type} `{FileSystem FS} `{IterationOrder} `{Uninitialized}.

(** The world a sequence of calls leaves behind. *)
Fixpoint exec (cs : list call) (w : World FS) : outcome (World FS) :=
  match cs with
  | [] => Returns w
  | c :: cs' =>
      match step c w with
      | Returns (_, w') => exec cs' w'
      | Undef => Undef
      end
  end.
End Exec.

(** An initialized store has a name. *)
Definition named_if_init (r : Recipe) : Prop :=
  _init r = true → _name r ≠ EmptyString.

(** An entry of a record, as the loop of [load_recipe] reads it back. *)
Definition read_back (e : list byte * list byte * byte)
  : string * N * list byte :=
  (string_of_list_byte e.1.1, N.of_nat (length e.1.2), e.1.2).

(** The entry [e], read from a file, is copied over the cell [a]. *)
Definition stores_at (map : gmap string RecipeItem)
    (e : string * N * list byte) (a : N) : bool :=
  match map !! e.1.1 with
  | Some item =>
      (size item =? e.1.2) && (ptr item <=? a) && (a <? ptr item + size item)
  | None => false
  end.

(** * CLParser: the command line parser

    Shallow embedding of [CLParser] (src/CLI/include/clparser.hpp).
    [int] is [Z], command lines and option strings being shorter than
    [INT_MAX]; [argc] and [argv] are one list of strings, [argc] its
    length; the array [_args] is a list as long as the array that was
    allocated; the [CLInfo] that [parse] fills is its result.  The
    template parameter [T] comes with its instance of [_convert_to],
    which for [std::string] is the identity. *)

Record CLInfo := mkInfo { success : bool; info : string }.

Record CLParser := mkParser {
  _file : string;
  _args : list string;
  _flags : gmap string bool;
  _kwargs : gmap string string;
  _num_args : Z
}.

Definition with_flags (p : CLParser) (m : gmap string bool) : CLParser :=
  mkParser (_file p) (_args p) m (_kwargs p) (_num_args p).

Definition with_kwargs (p : CLParser) (m : gmap string string) : CLParser :=
  mkParser (_file p) (_args p) (_flags p) m (_num_args p).

(** [m.emplace(k, v)]: an element already there is kept. *)
Definition emplace {V : Type} (m : gmap string V) (k : string) (v : V)
  : gmap string V :=
  if decide (is_Some (m !! k)) then m else <[k := v]> m.

(** [m.count(k) > 0] *)
Definition declared {V : Type} (m : gmap string V) (k : string) : bool :=
  bool_decide (is_Some (m !! k)).

Definition colon : ascii := Eval cbv in ascii_of_nat 58.
Definition minus : ascii := Eval cbv in ascii_of_nat 45.
Definition newline : string := Eval cbv in String (ascii_of_nat 10) EmptyString.
Definition dquote : string := Eval cbv in String (ascii_of_nat 34) EmptyString.

(** [flag = "-"; flag += c;] *)
Definition flag_of (c : ascii) : string := String minus (String c EmptyString).

(** The loop of [CLParser::add_flags], on what is left of [options]. *)
Fixpoint add_flags_loop (options : string) (p : CLParser) : CLParser :=
  match options with
  | EmptyString => p
  | String c rest =>
      let flag := flag_of c in
      match rest with
      | String c' rest' =>
          if Ascii.eqb c' colon
          then add_flags_loop rest'
                 (with_kwargs p (emplace (_kwargs p) flag EmptyString))
          else add_flags_loop rest
                 (with_flags p (emplace (_flags p) flag false))
      | EmptyString =>
          add_flags_loop rest (with_flags p (emplace (_flags p) flag false))
      end
  end.

(** [CLParser::add_flags] *)
Definition add_flags (p : CLParser) (options : string) : CLParser :=
  add_flags_loop options p.

(** [CLParser::CLParser()] *)
Definition CLParser0 : CLParser :=
  mkParser EmptyString [EmptyString] ∅ ∅ 0%Z.

(** [CLParser::CLParser(int num_args, std::string flags)]; [new] throws on
    a negative length. *)
Definition CLParser2 (num_args : Z) (flags : string) : option CLParser :=
  if decide (0 ≤ num_args)%Z
  then Some (add_flags
               (mkParser EmptyString
                  (replicate (Z.to_nat num_args) EmptyString) ∅ ∅ num_args)
               flags)
  else None.

(** [CLParser::set_num_args] *)
Definition set_num_args (p : CLParser) (num_args : Z) : CLParser :=
  let num_args' := if decide (num_args < 1)%Z then 1%Z else num_args in
  mkParser (_file p) (replicate (Z.to_nat num_args') EmptyString)
    (_flags p) (_kwargs p) num_args.

(** [CLParser::get_opt]; [_flags[flag]] declares a flag that is not there. *)
Definition get_opt (p : CLParser) (flag : string) (invert : bool)
  : bool * CLParser :=
  match _flags p !! flag with
  | Some b => (xorb b invert, p)
  | None => (xorb false invert, with_flags p (<[flag := false]> (_flags p)))
  end.

Section Convert.
Context {T : Type} (_convert_to : string → T).

(** [CLParser::get_arg<T>]; [None] is an index outside the array. *)
Definition get_arg (p : CLParser) (index : Z) : option T :=
  if decide (0 ≤ index)%Z
  then _convert_to <$> (_args p !! Z.to_nat index)
  else None.

(** [CLParser::get_kwarg<T>]; [_kwargs[flag]] declares a keyword that is
    not there. *)
Definition get_kwarg (p : CLParser) (flag : string) (default_value : T)
  : T * CLParser :=
  let '(str, p') :=
    match _kwargs p !! flag with
    | Some str => (str, p)
    | None =>
        (EmptyString, with_kwargs p (<[flag := EmptyString]> (_kwargs p)))
    end in
  if negb (String.eqb str EmptyString)
  then (_convert_to str, p')
  else (default_value, p').
End Convert.

(** [CLParser::get_file] *)
Definition get_file (p : CLParser) : string := _file p.

(** [str.size() == 2 && str[0] == '-'] *)
Definition option_like (str : string) : bool :=
  (String.length str =? 2)%nat && Ascii.eqb (front str) minus.

(** The first loop of [CLParser::parse]: the arguments before the first
    option, on what is left of [argv]. *)
Fixpoint count_supplied (p : CLParser) (argv : list string) : nat :=
  match argv with
  | [] => 0
  | str :: rest =>
      let is_opt := declared (_flags p) str in
      let is_kwarg := declared (_kwargs p) str in
      if is_opt || is_kwarg then 0%nat
      else if option_like str then 0%nat
      else S (count_supplied p rest)
  end.

Definition too_few : string :=
  "Error: Too few arguments supplied." +:+ newline.
Definition too_many : string :=
  "Error: Too many arguments supplied." +:+ newline.
Definition option_as_argument (str : string) : string :=
  "Error: Received option as argument to keyword " +:+ dquote +:+ str
  +:+ dquote +:+ "." +:+ newline.
Definition unknown_as_argument (str : string) : string :=
  "Error: Received unknown option as argument to keyword " +:+ dquote
  +:+ str +:+ dquote +:+ "." +:+ newline.
Definition no_argument (str : string) : string :=
  "Error: No argument given for keyword " +:+ dquote +:+ str +:+ dquote
  +:+ "." +:+ newline.
Definition unknown_option (str : string) : string :=
  "Error: Unknown option: " +:+ dquote +:+ str +:+ dquote +:+ "."
  +:+ newline.

(** The last loop of [CLParser::parse], on what is left of [argv]. *)
Fixpoint parse_options (p : CLParser) (argv : list string)
  : CLInfo * CLParser :=
  match argv with
  | [] => (mkInfo true "Parse successful.", p)
  | str :: rest =>
      if declared (_flags p) str then
        parse_options (with_flags p (<[str := true]> (_flags p))) rest
      else if declared (_kwargs p) str then
        match rest with
        | kwarg :: rest' =>
            let is_opt := declared (_flags p) kwarg in
            let is_kwarg := declared (_kwargs p) kwarg in
            if is_opt || is_kwarg then
              (mkInfo false (option_as_argument str), p)
            else if option_like kwarg then
              (mkInfo false (unknown_as_argument str), p)
            else
              parse_options (with_kwargs p (<[str := kwarg]> (_kwargs p)))
                rest'
        | [] => (mkInfo false (no_argument str), p)
        end
      else (mkInfo false (unknown_option str), p)
  end.

(** [CLParser::parse]; [None] is a read of [argv[0]] when there is none,
    or a write outside the array [_args]. *)
Definition parse (p : CLParser) (argv : list string)
  : option (CLInfo * CLParser) :=
  match argv with
  | [] => None
  | file :: rest =>
      let p := mkParser file (_args p) (_flags p) (_kwargs p) (_num_args p) in
      let supplied_arguments := count_supplied p rest in
      if decide (Z.of_nat supplied_arguments < _num_args p)%Z then
        Some (mkInfo false too_few, p)
      else if decide (Z.of_nat supplied_arguments > _num_args p)%Z then
        Some (mkInfo false too_many, p)
      else if decide (supplied_arguments ≤ length (_args p))%nat then
        let args :=
          take supplied_arguments rest ++ drop supplied_arguments (_args p) in
        let p := mkParser file args (_flags p) (_kwargs p) (_num_args p) in
        Some (parse_options p (drop supplied_arguments rest))
      else None
  end.

(** The array [_args] holds the mandatory arguments. *)
Definition args_allocated (p : CLParser) : Prop :=
  (_num_args p ≤ Z.of_nat (length (_args p)))%Z.

(** A token that is an argument: neither declared nor of the form of an
    option. *)
Definition plain (p : CLParser) (str : string) : Prop :=
  declared (_flags p) str = false ∧ declared (_kwargs p) str = false ∧
  option_like str = false.

(** A declaration in an option string: an option [c], or a keyword [c:]. *)
Inductive declaration :=
  | Opt (c : ascii)
  | Kw (c : ascii).

Definition declaration_char (d : declaration) : ascii :=
  match d with Opt c | Kw c => c end.

(** The option string of a list of declarations. *)
Fixpoint options_string (ds : list declaration) : string :=
  match ds with
  | [] => EmptyString
  | Opt c :: ds' => String c (options_string ds')
  | Kw c :: ds' => String c (String colon (options_string ds'))
  end.

(** Declaring one option or keyword. *)
Definition declare (p : CLParser) (d : declaration) : CLParser :=
  match d with
  | Opt c => with_flags p (emplace (_flags p) (flag_of c) false)
  | Kw c => with_kwargs p (emplace (_kwargs p) (flag_of c) EmptyString)
  end.

(** The parser of the example program, [CLParser parser(1, "hap:b")]. *)
Definition example_parser : CLParser :=
  add_flags
    (mkParser EmptyString (replicate 1 EmptyString) ∅ ∅ 1%Z) "hap:b".

(** The parser [q] has the declarations of [p]: the same number of
    arguments, the same flags and keywords, and every flag that is set in
    [p] set. *)
Definition same_declarations (p q : CLParser) : Prop :=
  _num_args q = _num_args p ∧
  (∀ f, is_Some (_flags q !! f) ↔ is_Some (_flags p !! f)) ∧
  (∀ f, is_Some (_kwargs q !! f) ↔ is_Some (_kwargs p !! f)) ∧
  (∀ f, _flags p !! f = Some true → _flags q !! f = Some true).

(** ** Example stores *)

(** A store with one 4-byte variable, not initialized, next to a file. *)
Definition stopped_world : World (gmap string (list byte)) :=
  mkWorld (add_variable (Recipe3 "x" "data/" ".rcp") "count" 0 4).2
    (<[0 := x2a]> ∅) (<["data/x.rcp" := [x01]]> ∅).

(** A record of three entries: [a], an identifier [zz] nobody registered
    (with its padding byte), and [a] again. *)
Definition skip_entries_before : list (list byte * list byte * byte) :=
  [([x61], [x07], x00)].
Definition skip_entries_after : list (list byte * list byte * byte) :=
  [([x61], [x08], x00)].

(** An initialized store with the 1-byte variable [a] at address 0 and the
    4-byte variable [count] at address 10, next to that record. *)
Definition skip_world : World (gmap string (list byte)) :=
  mkWorld
    (with_init
       (add_variable (add_variable (Recipe3 "x" "data/" ".rcp") "a" 0 1).2
          "count" 10 4).2 true)
    (<[0 := x2a]> ∅)
    (<["data/x.rcp" :=
         file_bytes (skip_entries_before
                     ++ ([x7a; x7a], [x01; x02; x03], xff)
                     :: skip_entries_after)]> ∅).



(** An initialized store with the 2-byte variable [s] at address 0, the
    1-byte variable [f] at address 1, inside [s], and the 3-byte variable
    [v] at address 4; and the same variables in another place, zeroed. *)
Definition source_world : World (gmap string (list byte)) :=
  mkWorld
    (with_init
       (add_variable
          (add_variable
             (add_variable (Recipe3 "x" "data/" ".rcp") "s" 0 2).2 "f" 1 1).2
          "v" 4 3).2 true)
    (<[0 := x05]> (<[1 := x06]> (<[4 := x01]> (<[5 := x02]> (<[6 := x03]> ∅)))))
    ∅.

Definition target_world : World (gmap string (list byte)) :=
  mkWorld
    (with_init
       (add_variable
          (add_variable
             (add_variable (Recipe3 "x" "data/" ".rcp") "v" 100 3).2
             "s" 200 2).2
          "f" 201 1).2 true)
    ∅
    (disk (save_recipe source_world).2).

(** The scenario of the 4-byte variable [count], zero in memory, next to
    a file in which it is 42. *)
Definition count_world : World (gmap string (list byte)) :=
  mkWorld
    (with_init (add_variable (Recipe3 "x" "data/" ".rcp") "count" 0 4).2 true)
    ∅
    (<["data/x.rcp" :=
         file_bytes [(list_byte_of_string "count", [x2a; x00; x00; x00], x00)]]> ∅).

(** The store of [skip_world] next to a file that ends after the value of
    [count], where the padding byte of the entry should follow. *)
Definition unpadded_world : World (gmap string (list byte)) :=
  mkWorld (self skip_world) ∅
    (<["data/x.rcp" :=
         size_t_bytes 5 ++ list_byte_of_string "count" ++ size_t_bytes 4
         ++ [x01; x02; x03; x04]]> ∅).

(** The same store next to a file that ends in the middle of the value of
    [count]. *)
Definition short_world : World (gmap string (list byte)) :=
  mkWorld (self skip_world) ∅
    (<["data/x.rcp" :=
         size_t_bytes 5 ++ list_byte_of_string "count" ++ size_t_bytes 4
         ++ [x01; x02]]> ∅).

(** * Properties *)

(** ** The representation of [size_t] *)

Lemma to_N_byte_of_N (x : N) : x < 256 → Byte.to_N (byte_of_N x) = x.
Proof.
  intros Hx. unfold byte_of_N.
  destruct (Byte.of_N x) as [b|] eqn:E.
  - by apply Byte.to_of_N.
  - apply Byte.of_N_None_iff in E. lia.
Qed.

Lemma length_le_encode (w : nat) (v : N) : length (le_encode w v) = w.
Proof. revert v. induction w as [|w IH]; intros v; simpl; [done|]. by rewrite IH. Qed.

Lemma le_decode_encode (w : nat) (v : N) :
  le_decode (le_encode w v) = v mod 256 ^ N.of_nat w.
Proof.
  revert v. induction w as [|w IH]; intros v.
  - simpl. by rewrite N.mod_1_r.
  - cbn [le_encode le_decode]. rewrite IH.
    rewrite to_N_byte_of_N by (apply N.mod_upper_bound; lia).
    rewrite Nat2N.inj_succ, N.pow_succ_r'.
    by rewrite N.Div0.mod_mul_r.
Qed.

Lemma length_size_t_bytes (v : N) : length (size_t_bytes v) = 8%nat.
Proof. apply length_le_encode. Qed.

Lemma le_decode_size_t_bytes (v : N) :
  v < SIZE_MAX1 → le_decode (size_t_bytes v) = v.
Proof.
  intros Hv. unfold size_t_bytes. rewrite le_decode_encode.
  apply N.mod_small. exact Hv.
Qed.

Lemma odd_size_add (a b : N) :
  negb (size_add a b mod 2 =? 0) = N.odd (a + b).
Proof.
  unfold size_add, SIZE_MAX1.
  assert (((a + b) mod 2 ^ 64) mod 2 = (a + b) mod 2) as ->.
  { pose proof (N.Div0.div_mod (a + b) (2 ^ 64)) as E.
    set (q := (a + b) / 2 ^ 64) in *. set (r := (a + b) mod 2 ^ 64) in *.
    rewrite E. change (2 ^ 64) with (2 ^ 63 * 2).
    rewrite N.mul_comm, N.mul_assoc, N.add_comm.
    by rewrite N.Div0.mod_add. }
  rewrite <- N.bit0_odd, N.bit0_eqb.
  assert ((a + b) mod 2 < 2) by (apply N.mod_upper_bound; lia).
  generalize dependent ((a + b) mod 2). intros x Hx.
  destruct (N.eqb_spec x 0), (N.eqb_spec x 1);
    simpl; try reflexivity; exfalso; lia.
Qed.

(** ** Reading what was written *)

Lemma file_read_app (buf a s : list byte) :
  length buf = length a → file_read buf (Good (a ++ s)) = (a, Good s).
Proof.
  intros Hlen. unfold file_read. rewrite Hlen.
  rewrite decide_True by (rewrite length_app; lia).
  by rewrite take_app_length, drop_app_length.
Qed.

Lemma read_size_t_app (old v : N) (s : list byte) :
  v < SIZE_MAX1 → read_size_t old (Good (size_t_bytes v ++ s)) = (v, Good s).
Proof.
  intros Hv. unfold read_size_t, ibind.
  rewrite file_read_app by (by rewrite !length_size_t_bytes).
  unfold iret. by rewrite le_decode_size_t_bytes.
Qed.

Lemma read_char_cons (character c : byte) (s : list byte) :
  read_char character (Good (c :: s)) = (c, Good s).
Proof.
  unfold read_char, ibind.
  change (c :: s) with ([c] ++ s). by rewrite file_read_app.
Qed.

Lemma read_id_app (character : byte) (a s : list byte) :
  read_id (length a) character (Good (a ++ s))
  = ((a, foldl (λ _ c, c) character a), Good s).
Proof.
  revert character. induction a as [|c a IH]; intros character; [done|].
  cbn [length read_id app foldl]. unfold ibind at 1. rewrite read_char_cons.
  unfold ibind at 1. by rewrite IH.
Qed.

Lemma length_new_char `{Uninitialized} (turn : nat) (size : N) :
  length (new_char turn size) = N.to_nat size.
Proof. unfold new_char. by rewrite length_fmap, length_seq. Qed.

Lemma read_entry_app `{Uninitialized} (turn : nat) (character : byte) (sz : N)
    (id val : list byte) (pad : byte) (rest : list byte) :
  fits_size_t (id, val, pad) →
  read_entry turn character sz (Good (entry_bytes id val pad ++ rest))
  = ((string_of_list_byte id, N.of_nat (length val), val,
      if N.odd (N.of_nat (length id) + N.of_nat (length val))
      then pad else foldl (λ _ c, c) character id),
     Good rest).
Proof.
  intros [Hid Hval]. simpl in Hid, Hval.
  unfold read_entry, entry_bytes.
  rewrite <- !app_assoc.
  unfold ibind at 1. rewrite read_size_t_app by done.
  unfold ibind at 1. rewrite Nat2N.id, read_id_app. cbn [fst snd].
  unfold ibind at 1. rewrite read_size_t_app by done.
  unfold ibind at 1.
  rewrite file_read_app by (by rewrite length_new_char, Nat2N.id).
  unfold ibind at 1.
  assert (size_add 0 (N.of_nat (length id)) = N.of_nat (length id)) as ->.
  { unfold size_add. rewrite N.add_0_l. by apply N.mod_small. }
  rewrite odd_size_add.
  destruct (N.odd _).
  - change ([pad] ++ rest) with (pad :: rest). by rewrite read_char_cons.
  - done.
Qed.

(** ** Memory *)

Lemma length_read_bytes (mem : memory) (p : N) (n : nat) :
  length (read_bytes mem p n) = n.
Proof. revert p. induction n as [|n IH]; intros p; simpl; [done|]. by rewrite IH. Qed.

Lemma read_bytes_lookup (mem : memory) (p : N) (n k : nat) :
  (k < n)%nat → read_bytes mem p n !! k = Some (mem !!! (p + N.of_nat k)).
Proof.
  revert p k. induction n as [|n IH]; intros p k Hk; [lia|].
  destruct k as [|k]; simpl.
  - by rewrite N.add_0_r.
  - rewrite IH by lia. do 2 f_equal. lia.
Qed.

Lemma read_bytes_ext (m1 m2 : memory) (p1 p2 : N) (n : nat) :
  (∀ k, (k < n)%nat → m1 !!! (p1 + N.of_nat k) = m2 !!! (p2 + N.of_nat k)) →
  read_bytes m1 p1 n = read_bytes m2 p2 n.
Proof.
  intros Hk. apply list_eq. intros i.
  destruct (decide (i < n)%nat) as [Hi|Hi].
  - rewrite !read_bytes_lookup by done. by rewrite Hk.
  - rewrite !lookup_ge_None_2; [done | |]; rewrite length_read_bytes; lia.
Qed.

Lemma write_bytes_frame (mem : memory) (p : N) (data : list byte) (a : N) :
  ¬ (p ≤ a < p + N.of_nat (length data)) →
  write_bytes mem p data !!! a = mem !!! a.
Proof.
  revert mem p. induction data as [|b data IH]; intros mem p Ha; [done|].
  cbn [write_bytes]. cbn [length] in Ha.
  rewrite IH by lia. apply lookup_total_insert_ne. lia.
Qed.

Lemma write_bytes_at (mem : memory) (p : N) (data : list byte) (k : nat) (b : byte) :
  data !! k = Some b → write_bytes mem p data !!! (p + N.of_nat k) = b.
Proof.
  revert mem p k. induction data as [|c data IH]; intros mem p k Hk; [done|].
  cbn [write_bytes]. destruct k as [|k]; simpl in Hk.
  - inversion Hk; subst. rewrite write_bytes_frame by lia.
    rewrite N.add_0_r. apply lookup_total_insert_eq.
  - replace (p + N.of_nat (S k)) with (N.succ p + N.of_nat k) by lia.
    by apply IH.
Qed.

(** A store leaves alone every cell outside the variable it writes. *)
Lemma store_entry_frame (map : gmap string RecipeItem) (id : string) (sz : N)
    (data : list byte) (mem : memory) (a : N) :
  length data = N.to_nat sz →
  (∀ item, map !! id = Some item → size item = sz → ¬ in_region item a) →
  store_entry map id sz data mem !!! a = mem !!! a.
Proof.
  intros Hlen Hout. unfold store_entry.
  destruct (map !! id) as [item|] eqn:E; [|done].
  destruct (N.eqb_spec (size item) sz) as [Hsz|Hsz]; simpl; [|done].
  apply write_bytes_frame. specialize (Hout item eq_refl Hsz).
  unfold in_region in Hout. lia.
Qed.

(** A store of a matching entry puts the data in the variable. *)
Lemma store_entry_at (map : gmap string RecipeItem) (id : string) (sz : N)
    (data : list byte) (mem : memory) (item : RecipeItem) (k : nat) (b : byte) :
  map !! id = Some item → size item = sz → data !! k = Some b →
  store_entry map id sz data mem !!! (ptr item + N.of_nat k) = b.
Proof.
  intros E Hsz Hk. unfold store_entry. rewrite E.
  rewrite (proj2 (N.eqb_eq _ _) Hsz). simpl. by apply write_bytes_at.
Qed.

(** An entry that is not registered, or has another size, stores nothing. *)
Lemma store_entry_skip (map : gmap string RecipeItem) (id : string) (sz : N)
    (data : list byte) (mem : memory) :
  map !! id = None ∨ (∃ item, map !! id = Some item ∧ size item ≠ sz) →
  store_entry map id sz data mem = mem.
Proof.
  intros [E|(item & E & Hsz)]; unfold store_entry; rewrite E; [done|].
  by rewrite (proj2 (N.eqb_neq _ _) Hsz).
Qed.

(** ** The loop of [load_recipe] *)

Lemma entry_bytes_cons (id val : list byte) (pad : byte) (rest : list byte) :
  ∃ b bs, entry_bytes id val pad ++ rest = b :: bs.
Proof. unfold entry_bytes, size_t_bytes. simpl. eauto. Qed.

Lemma length_entry_bytes (id val : list byte) (pad : byte) :
  length (entry_bytes id val pad)
  = (16 + length id + length val
     + (if N.odd (N.of_nat (length id) + N.of_nat (length val)) then 1 else 0))%nat.
Proof.
  unfold entry_bytes. rewrite !length_app, !length_size_t_bytes.
  destruct (N.odd _); simpl; lia.
Qed.

Lemma load_turns_entry `{Uninitialized} (fuel turn : nat) (character : byte)
    (sz : N) (map : gmap string RecipeItem)
    (id val : list byte) (pad : byte) (rest : list byte) (mem : memory) :
  fits_size_t (id, val, pad) →
  load_turns (S fuel) turn character sz map
    (Good (entry_bytes id val pad ++ rest)) mem
  = load_turns fuel (S turn)
      (if N.odd (N.of_nat (length id) + N.of_nat (length val))
       then pad else foldl (λ _ c, c) character id)
      (N.of_nat (length val)) map (Good rest)
      (store_entry map (string_of_list_byte id) (N.of_nat (length val)) val mem).
Proof.
  intros Hfit.
  destruct (entry_bytes_cons id val pad rest) as (b & bs & E).
  cbn [load_turns]. rewrite E. rewrite <- E.
  by rewrite read_entry_app.
Qed.

Lemma load_turns_file `{Uninitialized} (fuel turn : nat) (character : byte)
    (sz : N) (map : gmap string RecipeItem)
    (es : list (list byte * list byte * byte)) (mem : memory) :
  Forall fits_size_t es → (length es ≤ fuel)%nat →
  load_turns fuel turn character sz map (Good (file_bytes es)) mem
  = Loaded (store_entries map es mem).
Proof.
  intros Hfit. revert fuel turn character sz mem.
  induction Hfit as [|[[id val] pad] es Hf Hfit IH];
    intros fuel turn character sz mem Hfuel.
  - by destruct fuel.
  - destruct fuel as [|fuel]; [simpl in Hfuel; lia|].
    unfold file_bytes. cbn [fmap list_fmap concat fst snd].
    rewrite load_turns_entry by done.
    apply IH. simpl in Hfuel. lia.
Qed.

Lemma load_loop_file `{Uninitialized} (fuel : nat)
    (map : gmap string RecipeItem)
    (es : list (list byte * list byte * byte)) (mem : memory) :
  Forall fits_size_t es → (length es ≤ fuel)%nat →
  load_loop fuel map (file_bytes es) mem = Loaded (store_entries map es mem).
Proof. apply load_turns_file. Qed.

Lemma length_file_bytes (es : list (list byte * list byte * byte)) :
  (length es ≤ length (file_bytes es))%nat.
Proof.
  induction es as [|[[id val] pad] es IH]; [done|].
  unfold file_bytes in *. cbn [fmap list_fmap concat fst snd].
  rewrite length_app, length_entry_bytes. simpl. cbn [fmap] in IH. lia.
Qed.

(** The fuel [load_recipe] gives its loop is never used up. *)










(** ** The registry *)

(** C8 — Registry add/remove semantics: [add_variable] returns false exactly
    when the identifier is already registered, and then leaves the store as
    it is; otherwise it returns true and the registry maps the identifier
    to the new reference, every other identifier as before.
    [remove_variable] returns false exactly when the identifier is not
    registered, leaving the store as it is; otherwise it returns true and
    the identifier is gone, every other identifier as before. *)
Theorem registry_add_remove (r : Recipe) (id : string) (var sz : N) :
  ((add_variable r id var sz).1 = false ↔ is_Some (_map r !! id)) ∧
  ((add_variable r id var sz).1 = false → (add_variable r id var sz).2 = r) ∧
  ((add_variable r id var sz).1 = true →
     (add_variable r id var sz).2
       = with_map r (<[id := mkItem var sz]> (_map r)) ∧
     _map (add_variable r id var sz).2 !! id = Some (mkItem var sz) ∧
     ∀ id', id' ≠ id →
       _map (add_variable r id var sz).2 !! id' = _map r !! id') ∧
  ((remove_variable r id).1 = false ↔ _map r !! id = None) ∧
  ((remove_variable r id).1 = false → (remove_variable r id).2 = r) ∧
  ((remove_variable r id).1 = true →
     (remove_variable r id).2 = with_map r (delete id (_map r)) ∧
     _map (remove_variable r id).2 !! id = None ∧
     ∀ id', id' ≠ id →
       _map (remove_variable r id).2 !! id' = _map r !! id').
Proof.
  unfold add_variable, remove_variable.
  destruct (decide (is_Some (_map r !! id))) as [Hin|Hout];
    destruct (decide (_map r !! id = None)) as [Hnone|Hsome]; simpl.
  - rewrite Hnone in Hin. by destruct Hin.
  - repeat split; try done.
    + apply lookup_delete_eq.
    + intros id' Hne. by apply lookup_delete_ne.
  - repeat split; try done.
    + apply lookup_insert_eq.
    + intros id' Hne. by apply lookup_insert_ne.
  - destruct Hout. by apply not_eq_None_Some.
Qed.

(** ** Construction and path *)

(** C9 — The three-argument constructor stores folder and extension as they
    are given, so the path is their plain concatenation with the name; for
    the folder [data] and the extension [rcp] this path differs from the
    path of a store that was given the same strings by the setters. *)
Theorem constructor_stores_verbatim :
  (∀ name folder extension,
     _folder (Recipe3 name folder extension) = folder ∧
     _extension (Recipe3 name folder extension) = extension ∧
     _name (Recipe3 name folder extension) = name ∧
     get_path (Recipe3 name folder extension)
       = folder +:+ name +:+ extension) ∧
  get_path (Recipe3 "x" "data" "rcp") = "dataxrcp" ∧
  (∀ r, get_path (set_extension (set_folder (set_name r "x") "data") "rcp")
        = "data/x.rcp") ∧
  (∀ r, get_path (Recipe3 "x" "data" "rcp")
        ≠ get_path (set_extension (set_folder (set_name r "x") "data") "rcp")).
Proof. repeat split; done. Qed.

(** ** The guard of the codec *)

(** C4 — Precondition guard: on a store that is not initialized both
    [save_recipe] and [load_recipe] return false and leave the world as it
    is: the file system, the object with its registry, and the memory. *)
Theorem not_initialized_guard {FS : Type} `{FileSystem FS} `{Uninitialized} `{IterationOrder}
    (w : World FS) :
  _init (self w) = false →
  save_recipe w = (false, w) ∧ load_recipe w = Returns (false, w).
Proof.
  intros Hinit. unfold save_recipe, load_recipe. by rewrite Hinit.
Qed.

Lemma not_initialized_guard_witness :
  _init (self stopped_world) = false ∧
  save_recipe stopped_world = (false, stopped_world) ∧
  load_recipe stopped_world = Returns (false, stopped_world).
Proof.
  split; [reflexivity|].
  apply (not_initialized_guard stopped_world). reflexivity.
Defined.

(** ** The bytes of an entry *)

Lemma save_entry_entry_bytes (mem : memory) (id : string) (item : RecipeItem) :
  save_entry mem (id, item)
  = entry_bytes (list_byte_of_string id) (content mem item) x00.
Proof.
  unfold save_entry, entry_bytes, content, str_length. cbn [fst snd].
  assert (length (list_byte_of_string id) = String.length id) as Hlen.
  { induction id as [|c id IH]; [done|]. simpl. by rewrite <- IH. }
  rewrite Hlen, length_read_bytes, N2Nat.id, odd_size_add. done.
Qed.

(** ** What [save_recipe] writes *)

Lemma elem_of_iteration_order `{IterationOrder}
    (m : gmap string RecipeItem) (id : string) (item : RecipeItem) :
  (id, item) ∈ iteration_order m ↔ m !! id = Some item.
Proof. rewrite iteration_order_perm. apply elem_of_map_to_list. Qed.


Lemma save_entries_app (mem : memory) (l1 l2 : list (string * RecipeItem)) :
  save_entries mem (l1 ++ l2) = save_entries mem l1 ++ save_entries mem l2.
Proof. unfold save_entries. by rewrite fmap_app, concat_app. Qed.

Lemma save_entries_cons (mem : memory) (x : string * RecipeItem)
    (l : list (string * RecipeItem)) :
  save_entries mem (x :: l) = save_entry mem x ++ save_entries mem l.
Proof. done. Qed.

(** C10 — The empty identifier is accepted: on a store with no entry under
    the empty string [add_variable] returns true and registers it, and once
    the store is initialized [save_recipe] returns true and writes a file
    in which that entry stands encoded like any other: identifier length 0,
    no identifier bytes, the value length, the value, and the padding byte
    iff the value length is odd. *)
Theorem empty_identifier_accepted {FS : Type} `{FileSystem FS} `{IterationOrder}
    (w : World FS) (var sz : N) :
  _map (self w) !! EmptyString = None →
  let r := (add_variable (self w) EmptyString var sz).2 in
  (add_variable (self w) EmptyString var sz).1 = true ∧
  _map r !! EmptyString = Some (mkItem var sz) ∧
  save_entry (heap w) (EmptyString, mkItem var sz)
    = size_t_bytes 0 ++ size_t_bytes sz
      ++ read_bytes (heap w) var (N.to_nat sz)
      ++ (if N.odd sz then [x00] else []) ∧
  ∃ before after,
    save_recipe (mkWorld (with_init r true) (heap w) (disk w))
    = (true,
       mkWorld (with_init r true) (heap w)
         (fs_write (disk w) (get_path r)
            (before ++ save_entry (heap w) (EmptyString, mkItem var sz)
             ++ after))).
Proof.
  intros Hfree r. subst r. unfold add_variable.
  rewrite decide_False by (rewrite Hfree; by intros []).
  cbn [fst snd]. split; [done|]. split; [apply lookup_insert_eq|]. split.
  - unfold save_entry. cbn [fst snd]. rewrite odd_size_add. done.
  - assert ((EmptyString, mkItem var sz)
            ∈ iteration_order (<[EmptyString := mkItem var sz]> (_map (self w))))
      as Hin by (apply elem_of_iteration_order, lookup_insert_eq).
    apply list_elem_of_split in Hin as (l1 & l2 & Hl).
    exists (save_entries (heap w) l1), (save_entries (heap w) l2).
    unfold save_recipe. cbn. rewrite Hl.
    by rewrite save_entries_app, save_entries_cons.
Qed.

Lemma empty_identifier_accepted_witness :
  (add_variable (self stopped_world) EmptyString 0 1).1 = true ∧
  ∃ before after,
    save_recipe
      (mkWorld
         (with_init (add_variable (self stopped_world) EmptyString 0 1).2 true)
         (heap stopped_world) (disk stopped_world))
    = (true,
       mkWorld
         (with_init (add_variable (self stopped_world) EmptyString 0 1).2 true)
         (heap stopped_world)
         (fs_write (disk stopped_world)
            (get_path (add_variable (self stopped_world) EmptyString 0 1).2)
            (before
             ++ save_entry (heap stopped_world) (EmptyString, mkItem 0 1)
             ++ after))).
Proof.
  pose proof (empty_identifier_accepted stopped_world 0 1 eq_refl) as Hsave.
  cbv zeta in Hsave. split; [apply Hsave | apply Hsave].
Defined.

(** ** Entries that [load_recipe] skips *)

Lemma store_entries_app (map : gmap string RecipeItem)
    (es1 es2 : list (list byte * list byte * byte)) (mem : memory) :
  store_entries map (es1 ++ es2) mem
  = store_entries map es2 (store_entries map es1 mem).
Proof. unfold store_entries. by rewrite foldl_app. Qed.

Lemma store_entries_cons (map : gmap string RecipeItem)
    (e : list byte * list byte * byte)
    (es : list (list byte * list byte * byte)) (mem : memory) :
  store_entries map (e :: es) mem
  = store_entries map es
      (store_entry map (string_of_list_byte e.1.1) (N.of_nat (length e.1.2))
         e.1.2 mem).
Proof. done. Qed.

Lemma load_recipe_file {FS : Type} `{FileSystem FS} `{Uninitialized} (w : World FS)
    (es : list (list byte * list byte * byte)) :
  _init (self w) = true →
  fs_read (disk w) (get_path (self w)) = Some (file_bytes es) →
  Forall fits_size_t es →
  load_recipe w
  = Returns (true,
             mkWorld (self w) (store_entries (_map (self w)) es (heap w))
               (disk w)).
Proof.
  intros Hinit Hfile Hfit. unfold load_recipe. rewrite Hinit, Hfile. simpl.
  rewrite load_loop_file; [done|done|apply length_file_bytes].
Qed.

(** C2 — Merge-on-load skip policy: let the file be a well-formed record
    and let one of its entries carry an identifier that is not registered,
    or a value whose length is not the registered size.  Then
    [load_recipe] returns true, that entry changes no byte of memory, and
    the memory is left as the other entries of the file, before and after
    it, leave it: exactly as by loading the record without that entry. *)
Theorem merge_on_load_skip {FS : Type} `{FileSystem FS} `{Uninitialized} (w : World FS)
    (es1 es2 : list (list byte * list byte * byte))
    (id val : list byte) (pad : byte) :
  _init (self w) = true →
  fs_read (disk w) (get_path (self w))
    = Some (file_bytes (es1 ++ (id, val, pad) :: es2)) →
  Forall fits_size_t (es1 ++ (id, val, pad) :: es2) →
  (_map (self w) !! string_of_list_byte id = None ∨
   ∃ item, _map (self w) !! string_of_list_byte id = Some item ∧
           size item ≠ N.of_nat (length val)) →
  (∀ mem, store_entry (_map (self w)) (string_of_list_byte id)
            (N.of_nat (length val)) val mem = mem) ∧
  load_recipe w
    = Returns (true,
               mkWorld (self w)
                 (store_entries (_map (self w)) (es1 ++ es2) (heap w))
                 (disk w)) ∧
  load_loop (length (file_bytes (es1 ++ es2))) (_map (self w))
    (file_bytes (es1 ++ es2)) (heap w)
    = Loaded (store_entries (_map (self w)) (es1 ++ es2) (heap w)).
Proof.
  intros Hinit Hfile Hfit Hskip.
  assert (∀ mem, store_entry (_map (self w)) (string_of_list_byte id)
                   (N.of_nat (length val)) val mem = mem) as Hnop.
  { intros mem. by apply store_entry_skip. }
  split; [exact Hnop|]. split.
  - rewrite (load_recipe_file w _ Hinit Hfile Hfit). do 3 f_equal.
    rewrite !store_entries_app, store_entries_cons. cbn [fst snd].
    by rewrite Hnop.
  - apply load_loop_file; [|apply length_file_bytes].
    apply Forall_app in Hfit as [Hfit1 Hfit2].
    apply Forall_app. split; [done|]. by inversion Hfit2.
Qed.

Lemma merge_on_load_skip_witness :
  load_recipe skip_world
  = Returns (true,
             mkWorld (self skip_world) (<[0 := x08]> ∅) (disk skip_world)).
Proof.
  pose proof (merge_on_load_skip skip_world skip_entries_before
                skip_entries_after [x7a; x7a] [x01; x02; x03] xff) as Hskip.
  destruct Hskip as (_ & Hload & _).
  - reflexivity.
  - reflexivity.
  - repeat constructor.
  - left. reflexivity.
  - rewrite Hload. vm_compute. reflexivity.
Defined.

(** ** Path normalization *)

Lemma trailing_le_length (c : ascii) (s : string) :
  (trailing c s ≤ String.length s)%nat.
Proof.
  induction s as [|c' s IH]; [done|]. cbn [trailing String.length].
  destruct (_ && _); lia.
Qed.

Lemma append_cons (c : ascii) (s t : string) :
  String c s +:+ t = String c (s +:+ t).
Proof. reflexivity. Qed.

Lemma append_empty_r (s : string) : s +:+ EmptyString = s.
Proof. induction s as [|c s IH]; [done|]. by rewrite append_cons, IH. Qed.

Lemma length_snoc (s : string) (c : ascii) :
  String.length (s +:+ String c EmptyString) = S (String.length s).
Proof.
  induction s as [|c' s IH]; [done|].
  rewrite append_cons. cbn [String.length]. by rewrite IH.
Qed.

Lemma trailing_snoc (c : ascii) (s : string) :
  trailing c (s +:+ String c EmptyString) = S (trailing c s).
Proof.
  induction s as [|c' s IH].
  - change (EmptyString +:+ String c EmptyString) with (String c EmptyString).
    cbn. by rewrite Ascii.eqb_refl.
  - rewrite append_cons. cbn [trailing]. rewrite IH, length_snoc.
    cbn [Nat.eqb]. by destruct (_ && _).
Qed.

Lemma trailing_back (c : ascii) (s : string) :
  s ≠ EmptyString →
  (Ascii.eqb (back s) c = true ↔ (1 ≤ trailing c s)%nat).
Proof.
  induction s as [|c' s IH]; [done|]. intros _.
  destruct s as [|c'' s].
  - simpl. destruct (Ascii.eqb c' c); simpl; split; (done || lia).
  - change (back (String c' (String c'' s))) with (back (String c'' s)).
    rewrite IH by done.
    assert (1 ≤ String.length (String c'' s))%nat as Hlen by (simpl; lia).
    generalize dependent (String c'' s). intros t _ Hlen.
    cbn [trailing].
    destruct (Ascii.eqb c' c); cbn [andb]; [|done].
    destruct (Nat.eqb_spec (trailing c t) (String.length t)); lia.
Qed.

(** C7, as amended — [set_folder] appends one separator to a non-empty
    string that does not end with one and stores any other string as it
    is; [set_extension] puts one dot before a non-empty string that does
    not begin with one and stores any other string as it is.  So a
    non-empty folder is stored with as many closing separators as it was
    given, and one if it was given none; likewise for the dots an
    extension begins with.  [get_path] is folder, name and extension
    one after the other. *)
Theorem path_normalization (r : Recipe) (s : string) :
  (_folder (set_folder r s)
     = if String.eqb s EmptyString || Ascii.eqb (back s) slash
       then s else s +:+ "/") ∧
  (s ≠ EmptyString →
     trailing slash (_folder (set_folder r s)) = (1 `max` trailing slash s)%nat) ∧
  (_extension (set_extension r s)
     = if String.eqb s EmptyString || Ascii.eqb (front s) dot
       then s else "." +:+ s) ∧
  (s ≠ EmptyString →
     leading dot (_extension (set_extension r s)) = (1 `max` leading dot s)%nat) ∧
  _folder (set_folder r EmptyString) = EmptyString ∧
  _extension (set_extension r EmptyString) = EmptyString ∧
  get_path r = _folder r +:+ _name r +:+ _extension r.
Proof.
  split; [|split; [|split; [|split]]].
  - unfold set_folder. cbn [stop with_init _folder].
    destruct (String.eqb s EmptyString) eqn:E; simpl.
    + apply String.eqb_eq in E. subst s. done.
    + destruct (Ascii.eqb (back s) slash); simpl; [|done].
      apply append_empty_r.
  - intros Hs. unfold set_folder. cbn [stop with_init _folder].
    rewrite (proj2 (String.eqb_neq _ _) Hs). cbn [negb andb].
    destruct (Ascii.eqb (back s) slash) eqn:E; cbn [negb].
    + apply (trailing_back slash s Hs) in E.
      rewrite append_empty_r. lia.
    + assert (trailing slash s = 0)%nat as Hz.
      { destruct (trailing slash s) eqn:Ht; [done|].
        assert (Ascii.eqb (back s) slash = true)
          by (apply (trailing_back slash s Hs); lia).
        congruence. }
      change "/"%string with (String slash EmptyString).
      rewrite trailing_snoc, Hz. done.
  - unfold set_extension. cbn [stop with_init _extension].
    destruct (String.eqb s EmptyString) eqn:E; simpl; [done|].
    by destruct (Ascii.eqb (front s) dot).
  - intros Hs. unfold set_extension. cbn [stop with_init _extension].
    rewrite (proj2 (String.eqb_neq _ _) Hs). cbn [negb andb].
    destruct s as [|c s]; [done|]. cbn [front].
    destruct (Ascii.eqb c dot) eqn:E; cbn [negb].
    + change (EmptyString +:+ String c s) with (String c s).
      cbn [leading]. rewrite E. lia.
    + change ("." +:+ String c s) with (String dot (String c s)).
      cbn [leading]. by rewrite Ascii.eqb_refl, E.
  - done.
Qed.

(** C7, as stated, fails: a folder given with two closing separators is
    stored with both, and an extension given with two dots keeps both. *)
Lemma path_normalization_counterexample :
  "a//"%string ≠ EmptyString ∧
  _folder (set_folder Recipe0 "a//") = "a//"%string ∧
  trailing slash (_folder (set_folder Recipe0 "a//")) ≠ 1%nat ∧
  "..x"%string ≠ EmptyString ∧
  _extension (set_extension Recipe0 "..x") = "..x"%string ∧
  leading dot (_extension (set_extension Recipe0 "..x")) ≠ 1%nat.
Proof. repeat split; done. Qed.

(** ** Life cycle *)

Section Blocked.
Context {FS : Type} `{FileSystem FS} `{IterationOrder} `{Uninitialized}.

(** [init] reports the flag it leaves behind. *)
Lemma init_returns_flag (w : World FS) :
  _init (self w) = false → (init w).1 = _init (self (init w).2).
Proof.
  intros Hw. unfold init.
  destruct (String.eqb _ _); [simpl; congruence|].
  destruct (fs_exists _ _); [done|].
  by destruct (fs_create _ _) as [[] d].
Qed.

(** One call on a store that is not initialized: it returns, [save_recipe]
    and [load_recipe] return false, and only an [init] that returns true
    sets the flag. *)
Lemma step_blocked (c : call) (w : World FS) :
  _init (self w) = false →
  ∃ v w', step c w = Returns (v, w') ∧
    (c = CSaveRecipe ∨ c = CLoadRecipe → v = VBool false) ∧
    (¬ (c = CInit ∧ v = VBool true) → _init (self w') = false).
Proof.
  intros Hw. destruct c; cbn [step].
  - pose proof (init_returns_flag w Hw) as Hflag.
    destruct (init w) as [b w'] eqn:E. cbn [fst snd] in Hflag.
    eexists _, _. split; [done|]. split; [by intros [|]|].
    intros Hb. rewrite <- Hflag. destruct b; [|done].
    destruct Hb. done.
  - eexists _, _. split; [done|]. split; [by intros [|]|]. done.
  - destruct (add_variable (self w) id var sz) as [b r] eqn:E.
    eexists _, _. split; [done|]. split; [by intros [|]|]. intros _.
    unfold add_variable in E. destruct (decide _); inversion E; by subst.
  - destruct (remove_variable (self w) id) as [b r] eqn:E.
    eexists _, _. split; [done|]. split; [by intros [|]|]. intros _.
    unfold remove_variable in E. destruct (decide _); inversion E; by subst.
  - unfold load_recipe. rewrite Hw. cbn.
    eexists _, _. split; [done|]. split; done.
  - unfold save_recipe. rewrite Hw. cbn.
    eexists _, _. split; [done|]. split; done.
  - eexists _, _. split; [done|]. split; [by intros [|]|]. done.
  - eexists _, _. split; [done|]. split; [by intros [|]|]. done.
  - eexists _, _. split; [done|]. split; [by intros [|]|]. done.
  - eexists _, _. split; [done|]. split; [by intros [|]|]. done.
  - eexists _, _. split; [done|]. split; [by intros [|]|]. done.
Qed.

(** As long as no [init] has returned true, every call returns, and
    [save_recipe] and [load_recipe] return false. *)
Lemma run_blocked (cs : list call) (w : World FS) (k : nat) (c : call) :
  _init (self w) = false →
  cs !! k = Some c →
  (∀ j, (j < k)%nat → cs !! j = Some CInit →
        run cs w !! j ≠ Some (VBool true)) →
  ∃ v, run cs w !! k = Some v ∧
       (c = CSaveRecipe ∨ c = CLoadRecipe → v = VBool false).
Proof.
  revert w k. induction cs as [|c0 cs IH]; intros w k Hw Hk Hinits; [done|].
  destruct (step_blocked c0 w Hw) as (v0 & w' & Hstep & Hfalse & Hflag).
  cbn [run]. rewrite Hstep.
  destruct k as [|k].
  - simpl in Hk. inversion Hk; subst c0. exists v0. split; [done|]. done.
  - simpl in Hk. apply (IH w' k); [|done|].
    + apply Hflag. intros [-> ->].
      apply (Hinits 0%nat); [lia|done|].
      cbn [run]. by rewrite Hstep.
    + intros j Hj Hcj. specialize (Hinits (S j)).
      cbn [run] in Hinits. rewrite Hstep in Hinits.
      apply Hinits; [lia|done].
Qed.
End Blocked.

(** C5 — Reinitialization requirement: after [set_name], [set_folder] or
    [set_extension], with any argument and on any store, [is_init] is
    false; and in every sequence of calls that follows, each call made
    before an [init] has returned true does return, with false if it is
    [save_recipe] or [load_recipe]. *)
Theorem reinitialization_required {FS : Type} `{FileSystem FS} `{IterationOrder}
    (w : World FS) (s : string) (r : Recipe) (cs : list call) (k : nat)
    (c : call) :
  r = set_name (self w) s ∨ r = set_folder (self w) s
    ∨ r = set_extension (self w) s →
  cs !! k = Some c →
  (∀ j, (j < k)%nat → cs !! j = Some CInit →
        run cs (with_self w r) !! j ≠ Some (VBool true)) →
  is_init r = false ∧
  ∃ v, run cs (with_self w r) !! k = Some v ∧
       (c = CSaveRecipe ∨ c = CLoadRecipe → v = VBool false).
Proof.
  intros Hr Hk Hinits.
  assert (is_init r = false) as Hflag by (by destruct Hr as [->|[->| ->]]).
  split; [done|]. by apply run_blocked.
Qed.

Lemma reinitialization_required_witness :
  is_init (self skip_world) = true ∧
  is_init (set_name (self skip_world) EmptyString) = false ∧
  run [CInit; CSaveRecipe; CLoadRecipe]
    (with_self skip_world (set_name (self skip_world) EmptyString)) !! 2%nat
  = Some (VBool false).
Proof.
  split; [reflexivity|].
  destruct (reinitialization_required skip_world EmptyString
              (set_name (self skip_world) EmptyString)
              [CInit; CSaveRecipe; CLoadRecipe] 2 CLoadRecipe)
    as (Hflag & v & Hv & Hfalse).
  - left. reflexivity.
  - reflexivity.
  - intros j Hj Hc. destruct j as [|[|j]]; [|discriminate Hc|lia].
    vm_compute. discriminate.
  - split; [exact Hflag|]. rewrite Hv. f_equal. apply Hfalse. by right.
Defined.

(** The scenario of [count]: the variable holds 42 after the load. *)
Example load_count :
  ∃ mem, load_recipe count_world
         = Returns (true, mkWorld (self count_world) mem (disk count_world)) ∧
         content mem (mkItem 0 4) = [x2a; x00; x00; x00].
Proof. eexists. split; vm_compute; reflexivity. Qed.

(** ** The frame of [load_recipe] *)

Lemma length_file_read (buf : list byte) (file : ifstream) :
  length (file_read buf file).1 = length buf.
Proof.
  destruct file as [s|]; [|done]. unfold file_read.
  destruct (decide _) as [Hle|Hgt]; cbn [fst].
  - by apply length_take_le.
  - rewrite length_app, length_drop. lia.
Qed.

Lemma read_entry_length `{Uninitialized} (turn : nat) (character : byte)
    (size : N) (file : ifstream) (id : string) (sz : N) (data : list byte)
    (character' : byte) (file' : ifstream) :
  read_entry turn character size file = (id, sz, data, character', file') →
  length data = N.to_nat sz.
Proof.
  unfold read_entry. unfold ibind at 1.
  destruct (read_size_t size file) as [sz1 st1]. unfold ibind at 1.
  destruct (read_id _ character st1) as [r st2]. unfold ibind at 1.
  destruct (read_size_t sz1 st2) as [sz2 st3]. unfold ibind at 1.
  pose proof (length_file_read (new_char turn sz2) st3) as Hlen.
  destruct (file_read _ st3) as [d st4]. cbn [fst] in Hlen.
  rewrite length_new_char in Hlen. unfold ibind, iret.
  destruct (negb _).
  - destruct (read_char r.2 st4) as [c st5]. by intros [= _ <- <- _ _].
  - by intros [= _ <- <- _ _].
Qed.

(** The loop of [load_recipe] stores, one after the other, the entries it
    reads. *)
Lemma load_turns_parse `{Uninitialized} (fuel turn : nat) (character : byte)
    (size : N) (map : gmap string RecipeItem) (file : ifstream)
    (mem : memory) (es : list (string * N * list byte)) :
  parse_turns fuel turn character size file = Some es →
  load_turns fuel turn character size map file mem
  = Loaded (foldl (λ m e, store_entry map e.1.1 e.1.2 e.2 m) mem es) ∧
  Forall (λ e, length e.2 = N.to_nat e.1.2) es.
Proof.
  revert turn character size file mem es.
  induction fuel as [|fuel IH]; intros turn character size file mem es.
  - destruct file as [[|b s]|]; [|done|]; by intros [= <-].
  - destruct file as [[|b s]|]; [by intros [= <-]| |by intros [= <-]].
    cbn [load_turns parse_turns].
    destruct (read_entry turn character size (Good (b :: s)))
      as [[[[id sz] data] ch] st] eqn:E.
    destruct (parse_turns fuel (S turn) ch sz st) as [es'|] eqn:Hes; [|done].
    intros [= <-]. destruct (IH _ _ _ _ (store_entry map id sz data mem) _ Hes)
      as [Hload Hlen].
    split; [by rewrite Hload|].
    constructor; [|done]. by apply read_entry_length in E.
Qed.

Lemma load_turns_Loaded `{Uninitialized} (fuel turn : nat) (character : byte)
    (size : N) (map : gmap string RecipeItem) (file : ifstream)
    (mem mem' : memory) :
  load_turns fuel turn character size map file mem = Loaded mem' →
  ∃ es, parse_turns fuel turn character size file = Some es ∧
        Forall (λ e, length e.2 = N.to_nat e.1.2) es ∧
        mem' = foldl (λ m e, store_entry map e.1.1 e.1.2 e.2 m) mem es.
Proof.
  revert turn character size file mem.
  induction fuel as [|fuel IH]; intros turn character size file mem.
  - destruct file as [[|b s]|]; [|done|]; intros [= <-]; by exists [].
  - destruct file as [[|b s]|];
      [intros [= <-]; by exists []| |intros [= <-]; by exists []].
    cbn [load_turns parse_turns].
    destruct (read_entry turn character size (Good (b :: s)))
      as [[[[id sz] data] ch] st] eqn:E.
    intros Hloop. apply IH in Hloop as (es & Hes & Hlen & ->).
    exists ((id, sz, data) :: es). rewrite Hes. split; [done|].
    split; [|done]. constructor; [|done]. by apply read_entry_length in E.
Qed.

Lemma load_loop_Loaded `{Uninitialized} (fuel : nat)
    (map : gmap string RecipeItem) (file : list byte) (mem mem' : memory) :
  load_loop fuel map file mem = Loaded mem' →
  ∃ es, parse_entries fuel file = Some es ∧
        Forall (λ e, length e.2 = N.to_nat e.1.2) es ∧
        mem' = foldl (λ m e, store_entry map e.1.1 e.1.2 e.2 m) mem es.
Proof. apply load_turns_Loaded. Qed.

Lemma foldl_store_frame (map : gmap string RecipeItem)
    (es : list (string * N * list byte)) (mem : memory) (a : N) :
  Forall (λ e, length e.2 = N.to_nat e.1.2) es →
  (∀ id sz data item, (id, sz, data) ∈ es → map !! id = Some item →
     size item = sz → ¬ in_region item a) →
  foldl (λ m e, store_entry map e.1.1 e.1.2 e.2 m) mem es !!! a = mem !!! a.
Proof.
  intros Hlen. revert mem.
  induction Hlen as [|[[id sz] data] es He Hlen IH]; intros mem Hout; [done|].
  cbn [foldl fst snd]. rewrite IH.
  - apply store_entry_frame; [done|]. intros item Hid Hsz.
    apply (Hout id sz data); [left|done|done].
  - intros id' sz' data' item Hin. apply (Hout id' sz' data' item). by right.
Qed.

(** X23 — The frame of [load_recipe]: when it returns it has left the
    object, and with it the registry, and the file system as they are, and
    has changed no byte of memory outside the registered variables whose
    identifier the loop read from the file with a value of the registered
    size.  So a registered variable keeps its content when none of its
    bytes lies in such a variable. *)
Theorem load_frame {FS : Type} `{FileSystem FS} `{Uninitialized}
    (w w' : World FS) (b : bool) :
  load_recipe w = Returns (b, w') →
  self w' = self w ∧ disk w' = disk w ∧
  (∀ a,
     (∀ id sz data item, (id, sz, data) ∈ entries_on_disk w →
        _map (self w) !! id = Some item → size item = sz →
        ¬ in_region item a) →
     heap w' !!! a = heap w !!! a) ∧
  (∀ id item,
     _map (self w) !! id = Some item →
     (∀ id' sz data item' a, (id', sz, data) ∈ entries_on_disk w →
        _map (self w) !! id' = Some item' → size item' = sz →
        in_region item a → ¬ in_region item' a) →
     content (heap w') item = content (heap w) item).
Proof.
  intros Hload. unfold load_recipe in Hload. unfold entries_on_disk.
  destruct (_init (self w)); cbn [negb] in Hload;
    [|injection Hload as <- <-; repeat split; done].
  destruct (fs_read _ _) as [file|]; [|done].
  destruct (load_loop _ _ _ _) as [mem|] eqn:Hloop; [|done].
  injection Hload as <- <-. cbn [self disk heap].
  apply load_loop_Loaded in Hloop as (es & Hes & Hlen & ->).
  assert (file_entries file = es) as Hentries
    by (unfold file_entries; by rewrite Hes).
  rewrite Hentries.
  assert (∀ a,
     (∀ id sz data item, (id, sz, data) ∈ es →
        _map (self w) !! id = Some item → size item = sz →
        ¬ in_region item a) →
     foldl (λ m e, store_entry (_map (self w)) e.1.1 e.1.2 e.2 m) (heap w) es
       !!! a = heap w !!! a) as Hframe
    by (intros a Ha; by apply foldl_store_frame).
  split; [done|]. split; [done|]. split; [exact Hframe|].
  intros id item Hid Hdisjoint. unfold content.
  apply read_bytes_ext. intros k Hk. apply Hframe.
  intros id' sz data item' Hin Hid' Hsz.
  apply (Hdisjoint id' sz data item'); [done|done|done|].
  unfold in_region. lia.
Qed.

Lemma load_frame_witness :
  load_recipe skip_world
    = Returns (true,
               mkWorld (self skip_world) (<[0 := x08]> ∅) (disk skip_world)) ∧
  content (<[0 := x08]> ∅) (mkItem 10 4) = content (heap skip_world) (mkItem 10 4).
Proof.
  assert (load_recipe skip_world
          = Returns (true,
                     mkWorld (self skip_world) (<[0 := x08]> ∅)
                       (disk skip_world))) as Hload
    by (vm_compute; reflexivity).
  split; [exact Hload|].
  destruct (load_frame skip_world _ true Hload) as (_ & _ & _ & Hkeep).
  apply (Hkeep "count"%string (mkItem 10 4)); [reflexivity|].
  intros id' sz data item' a Hin Hid' Hsz [Ha1 Ha2] [Hb1 Hb2].
  cbn [ptr size] in Ha1, Ha2.
  assert (entries_on_disk skip_world
          = [("a"%string, 1, [x07]); ("zz"%string, 3, [x01; x02; x03]);
             ("a"%string, 1, [x08])]) as Hentries
    by (vm_compute; reflexivity).
  rewrite Hentries in Hin.
  repeat (apply elem_of_cons in Hin as [[= -> -> ->]|Hin]);
    [| |  |by apply elem_of_nil in Hin].
  - assert (item' = mkItem 0 1) as -> by (vm_compute in Hid'; congruence).
    cbn [ptr size] in Hb1, Hb2. lia.
  - vm_compute in Hid'. discriminate.
  - assert (item' = mkItem 0 1) as -> by (vm_compute in Hid'; congruence).
    cbn [ptr size] in Hb1, Hb2. lia.
Defined.


(** ** Round trip *)

Lemma length_list_byte_of_string (s : string) :
  length (list_byte_of_string s) = String.length s.
Proof. induction s as [|c s IH]; [done|]. simpl. by rewrite <- IH. Qed.

Lemma save_entries_file_bytes (mem : memory) (l : list (string * RecipeItem)) :
  save_entries mem l = file_bytes (saved_entry mem <$> l).
Proof.
  unfold save_entries, file_bytes. rewrite <- list_fmap_compose. f_equal.
  apply list_fmap_ext. intros i [id item] _.
  by rewrite save_entry_entry_bytes.
Qed.

Lemma saved_entry_fits (mem : memory) (var : string * RecipeItem) :
  str_length var.1 < SIZE_MAX1 → size var.2 < SIZE_MAX1 →
  fits_size_t (saved_entry mem var).
Proof.
  intros Hid Hsz. unfold fits_size_t, saved_entry. cbn [fst snd].
  by rewrite length_list_byte_of_string, length_read_bytes, N2Nat.id.
Qed.

Lemma same_layout_refl (m : gmap string RecipeItem) : same_layout m m.
Proof.
  split; [done|].
  intros id id' i1 i1' i2 i2' k l H1 H1' H2 H2' _ _ Hcell. congruence.
Qed.

(** Variables that do not overlap have the layout of any variables of the
    same identifiers and sizes. *)
Lemma same_layout_disjoint (m1 m2 : gmap string RecipeItem) :
  (∀ id, size <$> m1 !! id = size <$> m2 !! id) →
  (∀ id id' i2 i2' a, id ≠ id' → m2 !! id = Some i2 → m2 !! id' = Some i2' →
     in_region i2 a → ¬ in_region i2' a) →
  same_layout m1 m2.
Proof.
  intros Hsizes Hdisjoint. split; [done|].
  intros id id' i1 i1' i2 i2' k l H1 H1' H2 H2' Hk Hl Hcell.
  destruct (decide (id = id')) as [->|Hne].
  - assert (i1 = i1') as -> by congruence.
    assert (i2 = i2') as -> by congruence. lia.
  - destruct (Hdisjoint id id' i2 i2' (ptr i2 + k) Hne H2 H2');
      unfold in_region; lia.
Qed.

(** After the saved entries of [l] are stored through the registry [map2],
    a cell of a variable of [map2] holds the saved byte, provided all
    variables that contain the cell agree on that byte. *)
Lemma round_trip_cell (map2 : gmap string RecipeItem) (mem mem0 : memory)
    (l : list (string * RecipeItem)) (a : N) (v : byte) :
  (∀ id item item2, (id, item) ∈ l → map2 !! id = Some item2 →
     size item2 = size item) →
  (∀ id item item2 k, (id, item) ∈ l → map2 !! id = Some item2 →
     k < size item → ptr item2 + k = a → mem !!! (ptr item + k) = v) →
  (∃ id item item2, (id, item) ∈ l ∧ map2 !! id = Some item2 ∧
     in_region item2 a) →
  store_entries map2 (saved_entry mem <$> l) mem0 !!! a = v.
Proof.
  induction l as [|[id item] l IH] using rev_ind; intros Hsz Hv Hcover.
  - destruct Hcover as (? & ? & ? & Hin & _). by apply elem_of_nil in Hin.
  - rewrite fmap_app, store_entries_app.
    change (saved_entry mem <$> [(id, item)]) with [saved_entry mem (id, item)].
    rewrite store_entries_cons. cbn [store_entries foldl saved_entry fst snd].
    rewrite string_of_list_byte_of_string, length_read_bytes, N2Nat.id.
    set (m := store_entries map2 (saved_entry mem <$> l) mem0).
    assert (∀ item2, map2 !! id = Some item2 → ¬ in_region item2 a →
              store_entry map2 id (size item)
                (read_bytes mem (ptr item) (N.to_nat (size item))) m !!! a = v)
      as Hother.
    { intros item2 Hid Hout.
      rewrite store_entry_frame;
        [|by rewrite length_read_bytes|intros i Hi _; congruence].
      apply IH.
      - intros id' item' item2' Hin. apply Hsz, elem_of_app. by left.
      - intros id' item' item2' k Hin. apply Hv, elem_of_app. by left.
      - destruct Hcover as (id' & item' & item2' & Hin & Hid' & Hreg).
        apply elem_of_app in Hin as [Hin|Hin]; [by eauto 10|].
        apply list_elem_of_singleton in Hin. injection Hin as -> ->.
        congruence. }
    destruct (map2 !! id) as [item2|] eqn:Hid.
    + assert (size item2 = size item) as Hsize
        by (apply (Hsz id item item2); [apply elem_of_app; right; by left|done]).
      destruct (decide (ptr item2 ≤ a < ptr item2 + size item2)) as [Hin|Hout].
      * replace a with (ptr item2 + N.of_nat (N.to_nat (a - ptr item2))) by lia.
        rewrite (store_entry_at map2 id (size item) _ m item2
                   (N.to_nat (a - ptr item2))
                   (mem !!! (ptr item + N.of_nat (N.to_nat (a - ptr item2)))));
          [|done|done|apply read_bytes_lookup; lia].
        apply (Hv id item item2); [apply elem_of_app; right; by left|done|lia|lia].
      * by apply (Hother item2).
    + unfold store_entry. rewrite Hid. fold m.
      apply IH.
      * intros id' item' item2' Hin. apply Hsz, elem_of_app. by left.
      * intros id' item' item2' k Hin. apply Hv, elem_of_app. by left.
      * destruct Hcover as (id' & item' & item2' & Hin & Hid' & Hreg).
        apply elem_of_app in Hin as [Hin|Hin]; [by eauto 10|].
        apply list_elem_of_singleton in Hin. injection Hin as -> ->.
        congruence.
Qed.

(** C1 — Round trip: let an initialized store save its registered
    variables, whatever bytes they hold, and let a store on the same path,
    whose registry describes memory of identical layout (the identifiers
    and sizes of the first, at any addresses, in memory of any content,
    zeroed or not), load the file that was written.  Then [save_recipe]
    and [load_recipe] return true and every variable of the second store
    holds the bytes the variable of the same identifier held in the first
    when it was saved. *)
Theorem save_load_round_trip {FS : Type} `{FileSystem FS} `{Uninitialized} `{IterationOrder}
    (w w2 : World FS) :
  _init (self w) = true →
  registry_fits (_map (self w)) →
  _init (self w2) = true →
  get_path (self w2) = get_path (self w) →
  same_layout (_map (self w)) (_map (self w2)) →
  disk w2 = disk (save_recipe w).2 →
  (∀ file, fs_read (fs_write (disk w) (get_path (self w)) file)
             (get_path (self w)) = Some file) →
  (save_recipe w).1 = true ∧
  ∃ mem,
    load_recipe w2 = Returns (true, mkWorld (self w2) mem (disk w2)) ∧
    ∀ id item item2,
      _map (self w) !! id = Some item → _map (self w2) !! id = Some item2 →
      content mem item2 = content (heap w) item.
Proof.
  intros Hinit Hfits Hinit2 Hpath [Hsizes Hlayout] Hdisk Hfs.
  unfold save_recipe in *. rewrite Hinit in *. cbn [negb fst snd disk] in *.
  split; [done|].
  set (l := iteration_order (_map (self w))) in *.
  assert (∀ id item, (id, item) ∈ l ↔ _map (self w) !! id = Some item) as Hl
    by (intros id item; apply elem_of_iteration_order).
  eexists. split.
  - apply load_recipe_file; [done| |].
    + rewrite Hdisk, Hpath, Hfs. f_equal. apply save_entries_file_bytes.
    + apply Forall_fmap, Forall_forall. intros [id item] Hin.
      apply Hl, Hfits in Hin as [Hid Hsz]. by apply saved_entry_fits.
  - intros id item item2 Hid Hid2. unfold content.
    assert (size item2 = size item) as Hsize.
    { pose proof (Hsizes id) as E. rewrite Hid, Hid2 in E. by injection E. }
    rewrite Hsize. apply read_bytes_ext. intros k Hk.
    apply round_trip_cell.
    + intros id' item' item2' Hin' Hid2'. apply Hl in Hin'.
      pose proof (Hsizes id') as E. rewrite Hin', Hid2' in E. by injection E.
    + intros id' item' item2' k' Hin' Hid2' Hk' Hcell. apply Hl in Hin'.
      f_equal.
      assert (size item2' = size item') as Hsize'.
      { pose proof (Hsizes id') as E. rewrite Hin', Hid2' in E. by injection E. }
      apply (Hlayout id' id item' item item2' item2 k' (N.of_nat k));
        [done|done|done|done|lia|lia|done].
    + exists id, item, item2. split; [by apply Hl|]. split; [done|].
      unfold in_region. lia.
Qed.

Lemma save_load_round_trip_witness :
  (save_recipe source_world).1 = true ∧
  ∃ mem,
    load_recipe target_world
      = Returns (true, mkWorld (self target_world) mem (disk target_world)) ∧
    content mem (mkItem 200 2) = [x05; x06] ∧
    content mem (mkItem 201 1) = [x06] ∧
    content mem (mkItem 100 3) = [x01; x02; x03].
Proof.
  assert (_map (self source_world)
          = <["v"%string := mkItem 4 3]>
              (<["f"%string := mkItem 1 1]>
                 (<["s"%string := mkItem 0 2]> ∅))) as Hmap by reflexivity.
  assert (_map (self target_world)
          = <["f"%string := mkItem 201 1]>
              (<["s"%string := mkItem 200 2]>
                 (<["v"%string := mkItem 100 3]> ∅))) as Hmap2 by reflexivity.
  destruct (save_load_round_trip source_world target_world)
    as (Hsave & mem & Hload & Hcontent).
  - reflexivity.
  - intros id item Hid. rewrite Hmap in Hid.
    rewrite !lookup_insert_Some, lookup_empty in Hid.
    destruct Hid as [[<- <-]|[_ [[<- <-]|[_ [[<- <-]|[_ Hid]]]]]];
      [| | |done]; split; reflexivity.
  - reflexivity.
  - reflexivity.
  - split.
    + intros id. rewrite Hmap, Hmap2.
      destruct (decide (id = "v"%string)) as [->|Hv]; [reflexivity|].
      destruct (decide (id = "f"%string)) as [->|Hf]; [reflexivity|].
      destruct (decide (id = "s"%string)) as [->|Hs]; [reflexivity|].
      by rewrite !lookup_insert_ne, !lookup_empty by done.
    + intros id id' i1 i1' i2 i2' k l H1 H1' H2 H2' Hk Hl Hcell.
      rewrite Hmap in H1, H1'.
      rewrite !lookup_insert_Some, lookup_empty in H1, H1'.
      destruct H1 as [[<- <-]|[_ [[<- <-]|[_ [[<- <-]|[_ H1]]]]]]; [| | |done];
        destruct H1' as [[<- <-]|[_ [[<- <-]|[_ [[<- <-]|[_ H1']]]]]];
        try done;
        vm_compute in H2, H2'; injection H2 as <-; injection H2' as <-;
        cbn [ptr size] in *; lia.
  - reflexivity.
  - intros file. apply lookup_insert_eq.
  - split; [exact Hsave|]. exists mem. split; [exact Hload|].
    rewrite (Hcontent "s"%string (mkItem 0 2) (mkItem 200 2) eq_refl eq_refl).
    rewrite (Hcontent "f"%string (mkItem 1 1) (mkItem 201 1) eq_refl eq_refl).
    rewrite (Hcontent "v"%string (mkItem 4 3) (mkItem 100 3) eq_refl eq_refl).
    repeat split; vm_compute; reflexivity.
Defined.

(** ** Padding *)

(** C3 — Padding correctness: [save_recipe] on an initialized store
    returns true and writes, for every registered variable in the order of
    the iteration, the two lengths, the identifier and the value, followed
    by one zero byte when identifier length plus value length is odd and
    by nothing when it is even.  And [load_recipe] on a file of entries
    that each carry one padding byte, of any value, when their sum is odd
    and none when it is even, returns true having read every entry right
    after the padding byte of the one before, or right after its value
    when it has no padding: all entries are stored, one after the other. *)
Theorem padding_correct {FS : Type} `{FileSystem FS} `{IterationOrder}
    `{Uninitialized} (w : World FS)
    (es : list (list byte * list byte * byte)) :
  _init (self w) = true →
  Forall fits_size_t es →
  fs_read (disk w) (get_path (self w))
    = Some (concat
              ((λ e, size_t_bytes (N.of_nat (length e.1.1)) ++ e.1.1
                     ++ size_t_bytes (N.of_nat (length e.1.2)) ++ e.1.2
                     ++ (if N.odd (N.of_nat (length e.1.1)
                                   + N.of_nat (length e.1.2))
                         then [e.2] else []))
                 <$> es)) →
  save_recipe w
    = (true,
       mkWorld (self w) (heap w)
         (fs_write (disk w) (get_path (self w))
            (concat
               ((λ var, size_t_bytes (str_length var.1)
                        ++ list_byte_of_string var.1
                        ++ size_t_bytes (size var.2)
                        ++ content (heap w) var.2
                        ++ (if N.odd (str_length var.1 + size var.2)
                            then [x00] else []))
                  <$> iteration_order (_map (self w)))))) ∧
  load_recipe w
    = Returns (true,
               mkWorld (self w)
                 (store_entries (_map (self w)) es (heap w)) (disk w)).
Proof.
  intros Hinit Hfit Hfile. split.
  - unfold save_recipe. rewrite Hinit. cbn [negb]. do 3 f_equal.
    unfold save_entries. f_equal. apply list_fmap_ext.
    intros i [id item] _. unfold save_entry, content. cbn [fst snd].
    by rewrite odd_size_add.
  - by apply load_recipe_file.
Qed.

Lemma padding_correct_witness :
  (save_recipe skip_world).1 = true ∧
  fs_read (disk (save_recipe skip_world).2) (get_path (self skip_world))
    = Some (size_t_bytes 5 ++ list_byte_of_string "count" ++ size_t_bytes 4
            ++ [x00; x00; x00; x00] ++ [x00]
            ++ size_t_bytes 1 ++ [x61] ++ size_t_bytes 1 ++ [x2a]) ∧
  load_recipe skip_world
    = Returns (true,
               mkWorld (self skip_world) (<[0 := x08]> ∅) (disk skip_world)).
Proof.
  destruct (padding_correct skip_world
              (skip_entries_before ++ ([x7a; x7a], [x01; x02; x03], xff)
               :: skip_entries_after)) as [Hsave Hload].
  - reflexivity.
  - repeat constructor.
  - reflexivity.
  - rewrite Hsave, Hload. repeat split; vm_compute; reflexivity.
Defined.

(** * Further properties of the store *)

(** ** Registering and removing *)

Lemma with_map_id (r : Recipe) : with_map r (_map r) = r.
Proof. by destruct r. Qed.

(** X1 — Removing a variable that was just registered under a free
    identifier gives back the store as it was before the registration. *)
Theorem add_then_remove (r : Recipe) (id : string) (var sz : N) :
  _map r !! id = None →
  (add_variable r id var sz).1 = true ∧
  remove_variable (add_variable r id var sz).2 id = (true, r).
Proof.
  intros Hfree. unfold add_variable.
  rewrite decide_False by (rewrite Hfree; by intros []).
  split; [done|]. unfold remove_variable. cbn [snd with_map _map].
  rewrite decide_False by (by rewrite lookup_insert_eq).
  f_equal. unfold with_map. cbn.
  rewrite delete_insert_eq, delete_id by done. by destruct r.
Qed.

Lemma add_then_remove_witness :
  remove_variable
    (add_variable (Recipe3 "x" "data/" ".rcp") "count" 0 4).2 "count"
  = (true, Recipe3 "x" "data/" ".rcp").
Proof. apply (add_then_remove (Recipe3 "x" "data/" ".rcp") "count" 0 4). reflexivity. Defined.

(** X2 — The first registration of an identifier stays: whatever the store,
    a second [add_variable] with the identifier of a first returns false
    and leaves the store, with the reference registered before, as it is;
    a new reference is only taken after [remove_variable]. *)
Theorem second_add_refused (r : Recipe) (id : string) (var sz var' sz' : N) :
  let r1 := (add_variable r id var sz).2 in
  is_Some (_map r1 !! id) ∧
  add_variable r1 id var' sz' = (false, r1) ∧
  _map (add_variable (remove_variable r1 id).2 id var' sz').2 !! id
    = Some (mkItem var' sz').
Proof.
  cbv zeta. assert (is_Some (_map (add_variable r id var sz).2 !! id)) as Hin.
  { unfold add_variable. destruct (decide _) as [Hin|Hout]; [done|].
    cbn. by rewrite lookup_insert_eq. }
  split; [done|]. split.
  - unfold add_variable at 1. by rewrite decide_True.
  - set (r1 := (add_variable r id var sz).2) in *.
    unfold remove_variable.
    rewrite decide_False by (intros E; rewrite E in Hin; by destruct Hin).
    unfold add_variable. cbn [snd with_map _map].
    rewrite decide_False by (rewrite lookup_delete_eq; by intros []).
    cbn. by rewrite lookup_insert_eq.
Qed.

(** ** Initialization *)

Section Init.
Context {FS : Type} `{FileSystem FS} `{IterationOrder} `{Uninitialized}.

(** X3 — [init] on a store whose file exists returns true and leaves the
    file system as it is; a second [init] changes nothing any more. *)
Theorem init_existing_file (w : World FS) :
  _name (self w) ≠ EmptyString →
  fs_exists (disk w) (get_path (self w)) = true →
  init w = (true, mkWorld (with_init (self w) true) (heap w) (disk w)) ∧
  init (init w).2 = (true, (init w).2).
Proof.
  intros Hname Hexists.
  assert (∀ w' : World FS, _name (self w') ≠ EmptyString →
            fs_exists (disk w') (get_path (self w')) = true →
            init w' = (true, mkWorld (with_init (self w') true) (heap w')
                               (disk w'))) as Hinit.
  { intros w' Hn He. unfold init.
    rewrite (proj2 (String.eqb_neq _ _) Hn). by rewrite He. }
  split; [by apply Hinit|].
  rewrite (Hinit w) by done. cbn [snd]. by rewrite Hinit.
Qed.

(** X4 — [init] never changes the memory, the registry or the three parts
    of the path; with an empty name it returns false and changes nothing
    at all, not even the file system. *)
Theorem init_frame (w : World FS) :
  heap (init w).2 = heap w ∧
  _map (self (init w).2) = _map (self w) ∧
  _name (self (init w).2) = _name (self w) ∧
  _folder (self (init w).2) = _folder (self w) ∧
  _extension (self (init w).2) = _extension (self w) ∧
  (_name (self w) = EmptyString → init w = (false, w)).
Proof.
  unfold init. destruct (String.eqb_spec (_name (self w)) EmptyString) as [E|E].
  - repeat split; done.
  - destruct (fs_exists _ _); [repeat split; done|].
    destruct (fs_create _ _) as [[] d]; repeat split; done.
Qed.

(** Every call keeps a name on an initialized store. *)
Lemma step_named (c : call) (w w' : World FS) (v : value) :
  step c w = Returns (v, w') →
  named_if_init (self w) → named_if_init (self w').
Proof.
  unfold named_if_init. intros Hstep Hw. destruct c; cbn [step] in Hstep.
  - unfold init in Hstep.
    destruct (String.eqb_spec (_name (self w)) EmptyString) as [E|E].
    + injection Hstep as _ <-. done.
    + destruct (fs_exists _ _); [injection Hstep as _ <-; done|].
      destruct (fs_create _ _) as [[] d]; injection Hstep as _ <-; done.
  - injection Hstep as _ <-. done.
  - unfold add_variable in Hstep.
    destruct (decide _); injection Hstep as _ <-; done.
  - unfold remove_variable in Hstep.
    destruct (decide _); injection Hstep as _ <-; done.
  - unfold load_recipe in Hstep.
    destruct (negb _); [injection Hstep as _ <-; done|].
    destruct (fs_read _ _); [|done].
    destruct (load_loop _ _ _ _); [|done].
    injection Hstep as _ <-. done.
  - unfold save_recipe in Hstep.
    destruct (negb _); injection Hstep as _ <-; done.
  - injection Hstep as _ <-. done.
  - injection Hstep as _ <-. done.
  - injection Hstep as _ <-. done.
  - injection Hstep as _ <-. done.
  - injection Hstep as _ <-. done.
Qed.

(** X5 — An initialized store has a non-empty name: the constructors
    build a store that is not initialized, and no sequence of calls leads
    from a store with this property to one without. *)
Theorem initialized_has_name (cs : list call) (w w' : World FS) :
  named_if_init (self w) →
  exec cs w = Returns w' →
  named_if_init (self w').
Proof.
  revert w. induction cs as [|c cs IH]; intros w Hw Hexec.
  - by injection Hexec as <-.
  - cbn [exec] in Hexec.
    destruct (step c w) as [[v w1]|] eqn:Hstep; [|done].
    apply (IH w1); [|done]. by apply (step_named c w w1 v).
Qed.

(** X6 — On a store that has a name whenever it is initialized, so on
    every store the constructors and the methods lead to, [init] returns
    the flag it leaves: true exactly when the store is initialized
    afterwards. *)
Theorem init_reports_flag (w : World FS) :
  named_if_init (self w) →
  (init w).1 = is_init (self (init w).2).
Proof.
  unfold named_if_init. intros Hw. unfold init.
  destruct (String.eqb_spec (_name (self w)) EmptyString) as [E|E].
  - cbn. unfold is_init. destruct (_init (self w)) eqn:Ei; [|done].
    exfalso. by apply Hw.
  - destruct (fs_exists _ _); [done|].
    by destruct (fs_create _ _) as [[] d].
Qed.
End Init.

Lemma init_existing_file_witness :
  init stopped_world
    = (true,
       mkWorld (with_init (self stopped_world) true) (heap stopped_world)
         (disk stopped_world)) ∧
  init (init stopped_world).2 = (true, (init stopped_world).2).
Proof. apply (init_existing_file stopped_world); [discriminate | reflexivity]. Defined.

Lemma initialized_has_name_witness :
  ∃ w', exec [CInit; CSetFolder "d"; CInit; CSaveRecipe] stopped_world
        = Returns w' ∧
        named_if_init (self w').
Proof.
  eexists. split; [reflexivity|].
  eapply (initialized_has_name [CInit; CSetFolder "d"; CInit; CSaveRecipe]
            stopped_world); [|reflexivity].
  intros Hinit. vm_compute in Hinit. discriminate Hinit.
Defined.

Lemma init_reports_flag_witness :
  (init stopped_world).1 = is_init (self (init stopped_world).2).
Proof.
  apply (init_reports_flag stopped_world).
  intros Hinit. vm_compute in Hinit. discriminate Hinit.
Defined.

Section Unnamed.
Context {FS : Type} `{FileSystem FS} `{IterationOrder} `{Uninitialized}.

Lemma step_unnamed (c : call) (w : World FS) :
  _name (self w) = EmptyString → _init (self w) = false →
  (∀ s, c = CSetName s → s = EmptyString) →
  ∃ v w', step c w = Returns (v, w') ∧
    _name (self w') = EmptyString ∧ _init (self w') = false ∧
    (c = CInit ∨ c = CSaveRecipe ∨ c = CLoadRecipe → v = VBool false).
Proof.
  intros Hname Hinit Hc.
  destruct c; cbn [step];
    try (unfold init; rewrite Hname; cbn);
    try (unfold add_variable; destruct (decide _));
    try (unfold remove_variable; destruct (decide _));
    try (unfold load_recipe; rewrite Hinit; cbn);
    try (unfold save_recipe; rewrite Hinit; cbn);
    eexists _, _; (split; [reflexivity|]); cbn;
    (split; [by (done || apply Hc)|]);
    (split; [done|]); by intros [|[|]].
Qed.

(** X7 — A store without a name, such as the default constructor builds,
    cannot be initialized before [set_name] gives it a name: in a
    sequence of calls with no [set_name] of a non-empty string every call
    returns, and [init], [save_recipe] and [load_recipe] return false. *)
Theorem unnamed_store_blocked (cs : list call) (w : World FS) :
  _name (self w) = EmptyString → _init (self w) = false →
  Forall (λ c, ∀ s, c = CSetName s → s = EmptyString) cs →
  length (run cs w) = length cs ∧
  ∀ k c v, cs !! k = Some c → run cs w !! k = Some v →
    c = CInit ∨ c = CSaveRecipe ∨ c = CLoadRecipe → v = VBool false.
Proof.
  intros Hname Hinit Hcs. revert w Hname Hinit.
  induction Hcs as [|c cs Hc Hcs IH]; intros w Hname Hinit; [done|].
  destruct (step_unnamed c w Hname Hinit Hc)
    as (v0 & w' & Hstep & Hname' & Hinit' & Hfalse).
  cbn [run]. rewrite Hstep.
  destruct (IH w' Hname' Hinit') as [Hlen Hvals].
  split; [simpl; by rewrite Hlen|].
  intros [|k] c' v Hc' Hv Hkind; simpl in Hc', Hv.
  - injection Hc' as <-. injection Hv as <-. by apply Hfalse.
  - by apply (Hvals k c' v).
Qed.
End Unnamed.

Lemma unnamed_store_blocked_witness :
  length
    (run [CAddVariable "count" 0 4; CInit; CSetFolder "d"; CInit; CSaveRecipe;
          CLoadRecipe]
       (mkWorld Recipe0 (∅ : memory) (∅ : gmap string (list byte))))
  = 6%nat ∧
  run [CAddVariable "count" 0 4; CInit; CSetFolder "d"; CInit; CSaveRecipe;
       CLoadRecipe]
    (mkWorld Recipe0 (∅ : memory) (∅ : gmap string (list byte))) !! 3%nat
  = Some (VBool false).
Proof.
  destruct (unnamed_store_blocked
              [CAddVariable "count" 0 4; CInit; CSetFolder "d"; CInit;
               CSaveRecipe; CLoadRecipe]
              (mkWorld Recipe0 (∅ : memory) (∅ : gmap string (list byte)))
              eq_refl eq_refl) as [Hlen Hvals].
  - repeat constructor; intros s; discriminate.
  - split; [exact Hlen|].
    destruct (run _ _ !! 3%nat) as [v|] eqn:Hv; [|discriminate Hv].
    f_equal. apply (Hvals 3%nat CInit v); [reflexivity|exact Hv|by left].
Defined.

(** ** The file that [save_recipe] writes *)

Lemma entry_bytes_even (id val : list byte) (pad : byte) :
  Nat.Even (length (entry_bytes id val pad)).
Proof.
  rewrite length_entry_bytes.
  destruct (N.odd _) eqn:Hodd.
  - apply N.odd_spec in Hodd as [m Hm].
    exists (9 + N.to_nat m)%nat. lia.
  - assert (N.even (N.of_nat (length id) + N.of_nat (length val)) = true)
      as Heven by (rewrite <- N.negb_odd, Hodd; done).
    apply N.even_spec in Heven as [m Hm].
    exists (8 + N.to_nat m)%nat. lia.
Qed.

(** X8 — Every entry that [save_recipe] writes has an even number of
    bytes, whatever the lengths of identifier and value; so has the file,
    and every entry begins at an even offset in it. *)
Theorem saved_entries_even (mem : memory) (var : string * RecipeItem)
    (vars : list (string * RecipeItem)) :
  Nat.Even (length (save_entry mem var)) ∧
  Nat.Even (length (save_entries mem vars)).
Proof.
  split.
  - destruct var as [id item]. rewrite save_entry_entry_bytes.
    apply entry_bytes_even.
  - induction vars as [|[id item] vars [m Hm]]; [by exists 0%nat|].
    rewrite save_entries_cons, length_app, save_entry_entry_bytes, Hm.
    destruct (entry_bytes_even (list_byte_of_string id) (content mem item) x00)
      as [k ->].
    exists (k + m)%nat. lia.
Qed.


Lemma file_bytes_cons (e : list byte * list byte * byte)
    (es : list (list byte * list byte * byte)) :
  file_bytes (e :: es) = entry_bytes e.1.1 e.1.2 e.2 ++ file_bytes es.
Proof. done. Qed.






(** ** Loading twice *)

Lemma write_bytes_lookup_frame (mem : memory) (p : N) (data : list byte) (a : N) :
  ¬ (p ≤ a < p + N.of_nat (length data)) →
  write_bytes mem p data !! a = mem !! a.
Proof.
  revert mem p. induction data as [|b data IH]; intros mem p Ha; [done|].
  cbn [write_bytes]. cbn [length] in Ha.
  rewrite IH by lia. apply lookup_insert_ne. lia.
Qed.

Lemma write_bytes_lookup_at (mem : memory) (p : N) (data : list byte)
    (k : nat) (b : byte) :
  data !! k = Some b → write_bytes mem p data !! (p + N.of_nat k) = Some b.
Proof.
  revert mem p k. induction data as [|c data IH]; intros mem p k Hk; [done|].
  cbn [write_bytes]. destruct k as [|k]; simpl in Hk.
  - inversion Hk; subst. rewrite write_bytes_lookup_frame by lia.
    rewrite N.add_0_r. apply lookup_insert_eq.
  - replace (p + N.of_nat (S k)) with (N.succ p + N.of_nat k) by lia.
    by apply IH.
Qed.

Lemma store_entry_lookup_out (map : gmap string RecipeItem)
    (e : string * N * list byte) (m : memory) (a : N) :
  length e.2 = N.to_nat e.1.2 → stores_at map e a = false →
  store_entry map e.1.1 e.1.2 e.2 m !! a = m !! a.
Proof.
  intros Hlen Hout. unfold store_entry, stores_at in *.
  destruct (map !! e.1.1) as [item|]; [|done].
  destruct (N.eqb_spec (size item) e.1.2) as [Hsz|Hsz]; cbn [negb]; [|done].
  apply write_bytes_lookup_frame. cbn [andb] in Hout.
  destruct (N.leb_spec (ptr item) a), (N.ltb_spec a (ptr item + size item));
    cbn in Hout; try done; lia.
Qed.

Lemma store_entry_lookup_in (map : gmap string RecipeItem)
    (e : string * N * list byte) (m m' : memory) (a : N) :
  length e.2 = N.to_nat e.1.2 → stores_at map e a = true →
  store_entry map e.1.1 e.1.2 e.2 m !! a
  = store_entry map e.1.1 e.1.2 e.2 m' !! a.
Proof.
  intros Hlen Hin. unfold store_entry, stores_at in *.
  destruct (map !! e.1.1) as [item|]; [|done].
  destruct (N.eqb_spec (size item) e.1.2) as [Hsz|Hsz]; cbn [negb]; [|done].
  cbn [andb] in Hin. apply andb_prop in Hin as [Hle Hlt].
  apply N.leb_le in Hle. apply N.ltb_lt in Hlt.
  destruct (lookup_lt_is_Some_2 e.2 (N.to_nat (a - ptr item))) as [b Hb];
    [lia|].
  replace a with (ptr item + N.of_nat (N.to_nat (a - ptr item))) by lia.
  by rewrite !(write_bytes_lookup_at _ _ _ _ b Hb).
Qed.

Lemma foldl_store_out (map : gmap string RecipeItem)
    (es : list (string * N * list byte)) (m : memory) (a : N) :
  Forall (λ e, length e.2 = N.to_nat e.1.2) es →
  existsb (λ e, stores_at map e a) es = false →
  foldl (λ m e, store_entry map e.1.1 e.1.2 e.2 m) m es !! a = m !! a.
Proof.
  intros Hlen. revert m.
  induction Hlen as [|e es He Hlen IH]; intros m Hout; [done|].
  cbn [existsb] in Hout. apply orb_false_elim in Hout as [Hout1 Hout2].
  cbn [foldl]. rewrite IH by done. by apply store_entry_lookup_out.
Qed.

Lemma foldl_store_in (map : gmap string RecipeItem)
    (es : list (string * N * list byte)) (m m' : memory) (a : N) :
  Forall (λ e, length e.2 = N.to_nat e.1.2) es →
  existsb (λ e, stores_at map e a) es = true →
  foldl (λ m e, store_entry map e.1.1 e.1.2 e.2 m) m es !! a
  = foldl (λ m e, store_entry map e.1.1 e.1.2 e.2 m) m' es !! a.
Proof.
  induction es as [|e es IH] using rev_ind; intros Hlen Hin; [done|].
  apply Forall_app in Hlen as [Hlen He]. inversion He as [|? ? He' _]; subst.
  rewrite existsb_app in Hin. cbn [existsb] in Hin.
  rewrite !foldl_app. cbn [foldl].
  destruct (stores_at map e a) eqn:Hat.
  - by apply store_entry_lookup_in.
  - rewrite !store_entry_lookup_out by done.
    apply IH; [done|]. by rewrite !orb_false_r in Hin.
Qed.

Lemma foldl_store_twice (map : gmap string RecipeItem)
    (es : list (string * N * list byte)) (m : memory) :
  Forall (λ e, length e.2 = N.to_nat e.1.2) es →
  foldl (λ m e, store_entry map e.1.1 e.1.2 e.2 m)
    (foldl (λ m e, store_entry map e.1.1 e.1.2 e.2 m) m es) es
  = foldl (λ m e, store_entry map e.1.1 e.1.2 e.2 m) m es.
Proof.
  intros Hlen. apply map_eq. intros a.
  destruct (existsb (λ e, stores_at map e a) es) eqn:Hat.
  - by apply foldl_store_in.
  - by apply foldl_store_out.
Qed.

Lemma store_entries_read_back (map : gmap string RecipeItem)
    (es : list (list byte * list byte * byte)) (m : memory) :
  store_entries map es m
  = foldl (λ m e, store_entry map e.1.1 e.1.2 e.2 m) m (read_back <$> es).
Proof.
  revert m. induction es as [|e es IH]; intros m; [done|].
  rewrite store_entries_cons, IH. done.
Qed.

(** X10 — [load_recipe] is idempotent on a well-formed record: it returns
    true, and a second call right after it returns true and changes
    nothing any more. *)
Theorem load_idempotent {FS : Type} `{FileSystem FS} `{Uninitialized}
    (w : World FS) (es : list (list byte * list byte * byte)) :
  _init (self w) = true →
  fs_read (disk w) (get_path (self w)) = Some (file_bytes es) →
  Forall fits_size_t es →
  ∃ w1, load_recipe w = Returns (true, w1) ∧
        load_recipe w1 = Returns (true, w1).
Proof.
  intros Hinit Hfile Hfit.
  eexists. split; [by apply load_recipe_file|].
  rewrite (load_recipe_file _ es) by done. cbn [self heap disk].
  do 3 f_equal. rewrite !store_entries_read_back.
  apply foldl_store_twice.
  apply Forall_fmap, Forall_forall. intros e _.
  unfold read_back, compose. cbn [fst snd]. by rewrite Nat2N.id.
Qed.

Lemma load_idempotent_witness :
  ∃ w1, load_recipe skip_world = Returns (true, w1) ∧
        load_recipe w1 = Returns (true, w1).
Proof.
  apply (load_idempotent skip_world
           (skip_entries_before ++ ([x7a; x7a], [x01; x02; x03], xff)
            :: skip_entries_after)).
  - reflexivity.
  - reflexivity.
  - repeat constructor.
Defined.

(** ** Loading what is in the file *)

Lemma store_entries_frame (map : gmap string RecipeItem)
    (es : list (list byte * list byte * byte)) (mem : memory) (a : N) :
  (∀ e item, e ∈ es → map !! string_of_list_byte e.1.1 = Some item →
     size item = N.of_nat (length e.1.2) → ¬ in_region item a) →
  store_entries map es mem !!! a = mem !!! a.
Proof.
  revert mem. induction es as [|e es IH]; intros mem Hout; [done|].
  rewrite store_entries_cons, IH.
  - apply store_entry_frame; [by rewrite Nat2N.id|].
    intros item Hid Hsz. apply (Hout e item); [by left|done|done].
  - intros e' item Hin. apply Hout. by right.
Qed.

(** X11 — [load_recipe] copies the value: when a well-formed file holds an
    entry with a registered identifier and a value of the registered size,
    and no entry after it is stored over the bytes of that variable, then
    [load_recipe] returns true and the variable holds the value of the
    entry; among several entries of one identifier the last one counts. *)
Theorem load_copies_value {FS : Type} `{FileSystem FS} `{Uninitialized} (w : World FS)
    (es1 es2 : list (list byte * list byte * byte))
    (id val : list byte) (pad : byte) (item : RecipeItem) :
  _init (self w) = true →
  fs_read (disk w) (get_path (self w))
    = Some (file_bytes (es1 ++ (id, val, pad) :: es2)) →
  Forall fits_size_t (es1 ++ (id, val, pad) :: es2) →
  _map (self w) !! string_of_list_byte id = Some item →
  size item = N.of_nat (length val) →
  (∀ e item' a, e ∈ es2 →
     _map (self w) !! string_of_list_byte e.1.1 = Some item' →
     size item' = N.of_nat (length e.1.2) →
     in_region item a → ¬ in_region item' a) →
  ∃ mem,
    load_recipe w = Returns (true, mkWorld (self w) mem (disk w)) ∧
    content mem item = val.
Proof.
  intros Hinit Hfile Hfit Hid Hsz Hlater.
  eexists. split; [by apply load_recipe_file|].
  rewrite store_entries_app, store_entries_cons. cbn [fst snd].
  set (m := store_entries (_map (self w)) es1 (heap w)).
  apply list_eq. intros k. unfold content.
  destruct (decide (k < length val)%nat) as [Hk|Hk].
  - rewrite read_bytes_lookup by lia.
    destruct (lookup_lt_is_Some_2 val k Hk) as [b Hb]. rewrite Hb. f_equal.
    rewrite store_entries_frame.
    + by apply (store_entry_at _ _ _ _ _ item k b).
    + intros e item' Hin Hid' Hsz'. apply (Hlater e item'); [done|done|done|].
      unfold in_region. lia.
  - rewrite !lookup_ge_None_2; [done|lia|].
    rewrite length_read_bytes. lia.
Qed.

Lemma load_copies_value_witness :
  ∃ mem,
    load_recipe skip_world
      = Returns (true, mkWorld (self skip_world) mem (disk skip_world)) ∧
    content mem (mkItem 0 1) = [x08].
Proof.
  apply (load_copies_value skip_world
           (skip_entries_before ++ [([x7a; x7a], [x01; x02; x03], xff)]) []
           [x61] [x08] x00 (mkItem 0 1)).
  - reflexivity.
  - reflexivity.
  - repeat constructor.
  - reflexivity.
  - reflexivity.
  - intros e item' a Hin. by apply elem_of_nil in Hin.
Defined.

(** X12 — Saving and loading on the same store changes no variable:
    after [save_recipe], a [load_recipe] on the store returns true and
    every cell of memory, inside the registered variables or not, reads
    as before, even where registered variables overlap. *)
Theorem save_then_load {FS : Type} `{FileSystem FS} `{Uninitialized} `{IterationOrder}
    (w : World FS) :
  _init (self w) = true →
  registry_fits (_map (self w)) →
  (∀ file, fs_read (fs_write (disk w) (get_path (self w)) file)
             (get_path (self w)) = Some file) →
  ∃ mem,
    load_recipe (save_recipe w).2
      = Returns (true, mkWorld (self w) mem (disk (save_recipe w).2)) ∧
    ∀ a, mem !!! a = heap w !!! a.
Proof.
  intros Hinit Hfits Hfs. unfold save_recipe. rewrite Hinit. cbn [negb snd].
  set (l := iteration_order (_map (self w))).
  assert (∀ id item, (id, item) ∈ l ↔ _map (self w) !! id = Some item) as Hl
    by (intros id item; apply elem_of_iteration_order).
  eexists. split.
  - rewrite (load_recipe_file _ (saved_entry (heap w) <$> l)); [done|done| |].
    + cbn [disk self]. rewrite Hfs. f_equal. apply save_entries_file_bytes.
    + apply Forall_fmap, Forall_forall. intros [id item] Hin.
      apply Hl, Hfits in Hin as [Hid Hsz]. by apply saved_entry_fits.
  - intros a. cbn [self heap].
    destruct (decide (Exists (λ var : string * RecipeItem,
                                ptr var.2 ≤ a < ptr var.2 + size var.2) l))
      as [Hin|Hout].
    + apply Exists_exists in Hin as ([id item] & Hin & Hreg).
      apply round_trip_cell.
      * intros id' item' item2' Hin' Hid'. apply Hl in Hin'. congruence.
      * intros id' item' item2' k Hin' Hid' Hk Hcell. apply Hl in Hin'.
        assert (item2' = item') as -> by congruence. by rewrite Hcell.
      * exists id, item, item. split; [done|]. split; [by apply Hl|done].
    + apply store_entries_frame. intros e item Hin Hid Hsz Hreg.
      apply list_elem_of_fmap in Hin as ([id0 item0] & -> & Hin).
      cbn [saved_entry fst snd] in Hid.
      rewrite string_of_list_byte_of_string in Hid.
      apply Hout, Exists_exists. exists (id0, item0). split; [done|].
      apply Hl in Hin. assert (item0 = item) as -> by congruence. done.
Qed.

Lemma save_then_load_witness :
  ∃ mem,
    load_recipe (save_recipe source_world).2
      = Returns (true,
                 mkWorld (self source_world) mem
                   (disk (save_recipe source_world).2)) ∧
    ∀ a, mem !!! a = heap source_world !!! a.
Proof.
  apply (save_then_load source_world).
  - reflexivity.
  - intros id item Hid.
    assert (_map (self source_world)
            = <["v"%string := mkItem 4 3]>
                (<["f"%string := mkItem 1 1]>
                   (<["s"%string := mkItem 0 2]> ∅))) as Hmap by reflexivity.
    rewrite Hmap in Hid. rewrite !lookup_insert_Some, lookup_empty in Hid.
    destruct Hid as [[<- <-]|[_ [[<- <-]|[_ [[<- <-]|[_ Hid]]]]]];
      [| | |done]; split; reflexivity.
  - intros file. apply lookup_insert_eq.
Defined.

(** ** Setting the path twice *)

Lemma back_snoc (s : string) (c : ascii) :
  back (s +:+ String c EmptyString) = c.
Proof.
  induction s as [|c' s IH]; [done|].
  rewrite append_cons. cbn [back].
  destruct (s +:+ String c EmptyString) eqn:E; [|done].
  by destruct s.
Qed.

(** X13 — The forms [set_folder] and [set_extension] store are their own
    normal forms: a folder or an extension read from a store and assigned
    again is stored as it is. *)
Theorem setters_idempotent (r r' : Recipe) (s : string) :
  _folder (set_folder r' (_folder (set_folder r s))) = _folder (set_folder r s) ∧
  _extension (set_extension r' (_extension (set_extension r s)))
    = _extension (set_extension r s).
Proof.
  split.
  - unfold set_folder. cbn [stop with_init _folder].
    destruct (String.eqb_spec s EmptyString) as [->|Hs]; [done|].
    cbn [negb andb].
    destruct (Ascii.eqb (back s) slash) eqn:E; cbn [negb].
    + rewrite append_empty_r. rewrite E.
      rewrite (proj2 (String.eqb_neq _ _) Hs). cbn. apply append_empty_r.
    + change "/"%string with (String slash EmptyString).
      rewrite back_snoc, Ascii.eqb_refl, andb_false_r. apply append_empty_r.
  - unfold set_extension. cbn [stop with_init _extension].
    destruct (String.eqb_spec s EmptyString) as [->|Hs]; [done|].
    cbn [negb andb].
    destruct (Ascii.eqb (front s) dot) eqn:E; cbn [negb].
    + change (EmptyString +:+ s) with s. rewrite E.
      by rewrite andb_false_r.
    + change ("." +:+ s) with (String dot s). cbn [front].
      by rewrite Ascii.eqb_refl, andb_false_r.
Qed.

(** ** Files that end in the middle of an entry *)



(** The loop over the entries a file begins with. *)
Lemma load_turns_prefix `{Uninitialized} (map : gmap string RecipeItem)
    (es : list (list byte * list byte * byte)) (tail : list byte) :
  Forall fits_size_t es →
  ∀ turn character sz mem, ∃ character' sz', ∀ fuel,
    load_turns (length es + fuel) turn character sz map
      (Good (file_bytes es ++ tail)) mem
    = load_turns fuel (turn + length es) character' sz' map (Good tail)
        (store_entries map es mem).
Proof.
  induction 1 as [|[[id val] pad] es Hf Hfit IH]; intros turn character sz mem.
  - exists character, sz. intros fuel. cbn [length file_bytes]. cbn.
    by rewrite Nat.add_0_r.
  - destruct (IH (S turn)
                (if N.odd (N.of_nat (length id) + N.of_nat (length val))
                 then pad else foldl (λ _ c, c) character id)
                (N.of_nat (length val))
                (store_entry map (string_of_list_byte id)
                   (N.of_nat (length val)) val mem)) as (ch' & sz' & Hrest).
    exists ch', sz'. intros fuel.
    rewrite file_bytes_cons, <- app_assoc. cbn [fst snd length].
    change (S (length es) + fuel)%nat with (S (length es + fuel)).
    rewrite load_turns_entry by done. rewrite Hrest.
    rewrite store_entries_cons. cbn [fst snd].
    by replace (turn + S (length es))%nat with (S turn + length es)%nat by lia.
Qed.

Lemma size_t_bytes_cons (v : N) (s : list byte) :
  ∃ b bs, size_t_bytes v ++ s = b :: bs.
Proof. unfold size_t_bytes. simpl. eauto. Qed.

Lemma read_char_end (character : byte) :
  read_char character (Good []) = (character, Failed).
Proof. done. Qed.

Lemma read_char_failed (character : byte) :
  read_char character Failed = (character, Failed).
Proof. done. Qed.

(** An entry at the end of the file whose padding byte is not there. *)
Lemma read_entry_unpadded `{Uninitialized} (turn : nat) (character : byte)
    (sz : N) (id val : list byte) :
  fits_size_t (id, val, x00) →
  N.odd (N.of_nat (length id) + N.of_nat (length val)) = true →
  read_entry turn character sz
    (Good (size_t_bytes (N.of_nat (length id)) ++ id
           ++ size_t_bytes (N.of_nat (length val)) ++ val))
  = ((string_of_list_byte id, N.of_nat (length val), val,
      foldl (λ _ c, c) character id), Failed).
Proof.
  intros [Hid Hval] Hodd. simpl in Hid, Hval.
  unfold read_entry.
  unfold ibind at 1. rewrite read_size_t_app by done.
  unfold ibind at 1. rewrite Nat2N.id, read_id_app. cbn [fst snd].
  unfold ibind at 1. rewrite read_size_t_app by done.
  unfold ibind at 1. rewrite <- (app_nil_r val) at 2.
  rewrite file_read_app by (by rewrite length_new_char, Nat2N.id).
  unfold ibind at 1.
  assert (size_add 0 (N.of_nat (length id)) = N.of_nat (length id)) as ->.
  { unfold size_add. rewrite N.add_0_l. by apply N.mod_small. }
  rewrite odd_size_add, Hodd. by rewrite read_char_end.
Qed.

(** An entry at the end of the file whose value is cut short. *)
Lemma read_entry_short `{Uninitialized} (turn : nat) (character : byte)
    (sz n : N) (id part : list byte) :
  N.of_nat (length id) < SIZE_MAX1 → n < SIZE_MAX1 →
  (length part < N.to_nat n)%nat →
  read_entry turn character sz
    (Good (size_t_bytes (N.of_nat (length id)) ++ id
           ++ size_t_bytes n ++ part))
  = ((string_of_list_byte id, n,
      part ++ drop (length part) (new_char turn n),
      foldl (λ _ c, c) character id), Failed).
Proof.
  intros Hid Hn Hpart.
  unfold read_entry.
  unfold ibind at 1. rewrite read_size_t_app by done.
  unfold ibind at 1. rewrite Nat2N.id, read_id_app. cbn [fst snd].
  unfold ibind at 1. rewrite read_size_t_app by done.
  unfold ibind at 1. unfold file_read at 1.
  rewrite decide_False by (rewrite length_new_char; lia).
  unfold ibind at 1. destruct (negb _); [by rewrite read_char_failed|done].
Qed.

Lemma read_bytes_write_bytes (mem : memory) (p : N) (data : list byte) :
  read_bytes (write_bytes mem p data) p (length data) = data.
Proof.
  apply list_eq. intros k.
  destruct (decide (k < length data)%nat) as [Hk|Hk].
  - rewrite read_bytes_lookup by done.
    destruct (lookup_lt_is_Some_2 data k Hk) as [b Hb].
    by rewrite Hb, (write_bytes_at _ _ _ _ b Hb).
  - rewrite !lookup_ge_None_2; [done|lia|rewrite length_read_bytes; lia].
Qed.

Section CutShort.
Context {FS : Type} `{FileSystem FS} `{Uninitialized}.

(** X25 — A padding byte that is missing at the end of the file is not
    missed: when the file ends right after the value of an entry whose
    padding byte should follow, [load_recipe] returns true and has stored
    every entry, also this last one. *)
Theorem missing_padding_tolerated (w : World FS)
    (es : list (list byte * list byte * byte)) (id val : list byte) :
  _init (self w) = true →
  fs_read (disk w) (get_path (self w))
    = Some (file_bytes es
            ++ size_t_bytes (N.of_nat (length id)) ++ id
            ++ size_t_bytes (N.of_nat (length val)) ++ val) →
  Forall fits_size_t (es ++ [(id, val, x00)]) →
  N.odd (N.of_nat (length id) + N.of_nat (length val)) = true →
  load_recipe w
  = Returns (true,
             mkWorld (self w)
               (store_entries (_map (self w)) (es ++ [(id, val, x00)])
                  (heap w))
               (disk w)).
Proof.
  intros Hinit Hfile Hfit Hodd.
  apply Forall_app in Hfit as [Hfit Hlast].
  inversion Hlast as [|? ? Hlast' _]; subst.
  unfold load_recipe. rewrite Hinit, Hfile. cbn [negb]. unfold load_loop.
  set (tail := size_t_bytes (N.of_nat (length id)) ++ id
               ++ size_t_bytes (N.of_nat (length val)) ++ val).
  destruct (load_turns_prefix (_map (self w)) es tail Hfit 0%nat uninit_char
              uninit_size (heap w)) as (ch & sz & Hprefix).
  assert (∃ fuel, length (file_bytes es ++ tail)
                  = (length es + S fuel)%nat) as [fuel ->].
  { exists (length (file_bytes es ++ tail) - length es - 1)%nat.
    pose proof (length_file_bytes es).
    rewrite length_app. unfold tail.
    rewrite length_app, length_size_t_bytes. lia. }
  rewrite Hprefix.
  destruct (size_t_bytes_cons (N.of_nat (length id))
              (id ++ size_t_bytes (N.of_nat (length val)) ++ val))
    as (b & bs & E).
  unfold tail. cbn [load_turns]. rewrite E. rewrite <- E.
  rewrite read_entry_unpadded by done.
  rewrite store_entries_app, store_entries_cons. cbn [fst snd].
  by destruct fuel.
Qed.

(** X26 — A value that is cut short is copied as far as it goes: when the
    file ends in the middle of the value of an entry whose identifier is
    registered with the size the entry gives, [load_recipe] returns true
    and the variable holds the bytes of the value that are there, followed
    by what the array allocated for the value held before. *)
Theorem short_value_copied (w : World FS)
    (es : list (list byte * list byte * byte)) (id part : list byte)
    (item : RecipeItem) :
  _init (self w) = true →
  fs_read (disk w) (get_path (self w))
    = Some (file_bytes es
            ++ size_t_bytes (N.of_nat (length id)) ++ id
            ++ size_t_bytes (size item) ++ part) →
  Forall fits_size_t es →
  N.of_nat (length id) < SIZE_MAX1 → size item < SIZE_MAX1 →
  (length part < N.to_nat (size item))%nat →
  _map (self w) !! string_of_list_byte id = Some item →
  ∃ mem,
    load_recipe w = Returns (true, mkWorld (self w) mem (disk w)) ∧
    content mem item
    = part ++ drop (length part) (new_char (length es) (size item)).
Proof.
  intros Hinit Hfile Hfit Hid Hsz Hpart Hitem.
  unfold load_recipe. rewrite Hinit, Hfile. cbn [negb]. unfold load_loop.
  set (tail := size_t_bytes (N.of_nat (length id)) ++ id
               ++ size_t_bytes (size item) ++ part).
  destruct (load_turns_prefix (_map (self w)) es tail Hfit 0%nat uninit_char
              uninit_size (heap w)) as (ch & sz & Hprefix).
  assert (∃ fuel, length (file_bytes es ++ tail)
                  = (length es + S fuel)%nat) as [fuel ->].
  { exists (length (file_bytes es ++ tail) - length es - 1)%nat.
    pose proof (length_file_bytes es).
    rewrite length_app. unfold tail.
    rewrite length_app, length_size_t_bytes. lia. }
  rewrite Hprefix.
  destruct (size_t_bytes_cons (N.of_nat (length id))
              (id ++ size_t_bytes (size item) ++ part)) as (b & bs & E).
  unfold tail. cbn [load_turns]. rewrite E. rewrite <- E.
  rewrite read_entry_short by done. cbn [Nat.add].
  eexists. split; [by destruct fuel|].
  unfold store_entry. rewrite Hitem, N.eqb_refl. cbn [negb].
  unfold content.
  set (data := part ++ drop (length part) (new_char (length es) (size item))).
  assert (length data = N.to_nat (size item)) as <-.
  { unfold data. rewrite length_app, length_drop, length_new_char. lia. }
  apply read_bytes_write_bytes.
Qed.
End CutShort.

Lemma missing_padding_tolerated_witness :
  load_recipe unpadded_world
  = Returns (true,
             mkWorld (self unpadded_world)
               (<[10 := x01]> (<[11 := x02]> (<[12 := x03]> (<[13 := x04]> ∅))))
               (disk unpadded_world)).
Proof.
  rewrite (missing_padding_tolerated unpadded_world []
             (list_byte_of_string "count") [x01; x02; x03; x04]).
  - vm_compute. reflexivity.
  - reflexivity.
  - reflexivity.
  - repeat constructor.
  - reflexivity.
Defined.

Lemma short_value_copied_witness :
  ∃ mem,
    load_recipe short_world
      = Returns (true, mkWorld (self short_world) mem (disk short_world)) ∧
    content mem (mkItem 10 4) = [x01; x02; x00; x00].
Proof.
  destruct (short_value_copied short_world []
              (list_byte_of_string "count") [x01; x02] (mkItem 10 4))
    as (mem & Hload & Hcontent).
  - reflexivity.
  - reflexivity.
  - constructor.
  - reflexivity.
  - reflexivity.
  - vm_compute. lia.
  - reflexivity.
  - exists mem. split; [exact Hload|]. rewrite Hcontent. reflexivity.
Defined.

(** * Properties of the command line parser *)

(** ** Declaring flags *)

Lemma emplace_lookup {V : Type} (m : gmap string V) (k k' : string) (v : V) :
  emplace m k v !! k'
  = match m !! k' with
    | Some x => Some x
    | None => if decide (k = k') then Some v else None
    end.
Proof.
  unfold emplace. destruct (decide (is_Some (m !! k))) as [[x Hx]|Hk].
  - destruct (m !! k') eqn:E; [done|]. destruct (decide (k = k')); [|done].
    congruence.
  - rewrite lookup_insert. destruct (decide (k = k')) as [->|].
    + destruct (m !! k') eqn:E; [|done]. destruct Hk. by eexists.
    + by destruct (m !! k').
Qed.

(** What [add_flags] keeps, stated for its loop. *)
Lemma add_flags_loop_keeps (n : nat) (options : string) (p : CLParser) :
  (String.length options ≤ n)%nat →
  _file (add_flags_loop options p) = _file p ∧
  _args (add_flags_loop options p) = _args p ∧
  _num_args (add_flags_loop options p) = _num_args p ∧
  (∀ f, match _flags p !! f with
        | Some b => _flags (add_flags_loop options p) !! f = Some b
        | None => _flags (add_flags_loop options p) !! f = None ∨
                  _flags (add_flags_loop options p) !! f = Some false
        end) ∧
  (∀ f, match _kwargs p !! f with
        | Some s => _kwargs (add_flags_loop options p) !! f = Some s
        | None => _kwargs (add_flags_loop options p) !! f = None ∨
                  _kwargs (add_flags_loop options p) !! f = Some EmptyString
        end).
Proof.
  revert options p. induction n as [|n IH]; intros options p Hn.
  - destruct options; [|simpl in Hn; lia]. cbn.
    repeat split; try done; intros f; destruct (_ !! f); auto.
  - destruct options as [|c rest].
    { cbn. repeat split; try done; intros f; destruct (_ !! f); auto. }
    cbn [add_flags_loop]. simpl in Hn.
    assert (∀ q : CLParser,
      _file q = _file p → _args q = _args p → _num_args q = _num_args p →
      (∀ f, match _flags p !! f with
            | Some b => _flags q !! f = Some b
            | None => _flags q !! f = None ∨ _flags q !! f = Some false
            end) →
      (∀ f, match _kwargs p !! f with
            | Some s => _kwargs q !! f = Some s
            | None => _kwargs q !! f = None ∨ _kwargs q !! f = Some EmptyString
            end) →
      ∀ o, (String.length o ≤ n)%nat →
      _file (add_flags_loop o q) = _file p ∧
      _args (add_flags_loop o q) = _args p ∧
      _num_args (add_flags_loop o q) = _num_args p ∧
      (∀ f, match _flags p !! f with
            | Some b => _flags (add_flags_loop o q) !! f = Some b
            | None => _flags (add_flags_loop o q) !! f = None ∨
                      _flags (add_flags_loop o q) !! f = Some false
            end) ∧
      (∀ f, match _kwargs p !! f with
            | Some s => _kwargs (add_flags_loop o q) !! f = Some s
            | None => _kwargs (add_flags_loop o q) !! f = None ∨
                      _kwargs (add_flags_loop o q) !! f = Some EmptyString
            end)) as Hnext.
    { intros q Hf Ha Hna Hfl Hkw o Ho.
      destruct (IH o q Ho) as (Hf' & Ha' & Hna' & Hfl' & Hkw').
      split; [congruence|]. split; [congruence|]. split; [congruence|].
      split; intros f.
      - specialize (Hfl f). specialize (Hfl' f).
        destruct (_flags p !! f); [by rewrite Hfl in Hfl'|].
        destruct Hfl as [Hq|Hq]; rewrite Hq in Hfl'; auto.
      - specialize (Hkw f). specialize (Hkw' f).
        destruct (_kwargs p !! f); [by rewrite Hkw in Hkw'|].
        destruct Hkw as [Hq|Hq]; rewrite Hq in Hkw'; auto. }
    assert (∀ f, match _flags p !! f with
                 | Some b => emplace (_flags p) (flag_of c) false !! f = Some b
                 | None => emplace (_flags p) (flag_of c) false !! f = None ∨
                           emplace (_flags p) (flag_of c) false !! f = Some false
                 end) as Hfl.
    { intros f. rewrite emplace_lookup. destruct (_flags p !! f); [done|].
      destruct (decide _); auto. }
    assert (∀ f, match _kwargs p !! f with
                 | Some s => emplace (_kwargs p) (flag_of c) EmptyString !! f
                             = Some s
                 | None => emplace (_kwargs p) (flag_of c) EmptyString !! f
                           = None ∨
                           emplace (_kwargs p) (flag_of c) EmptyString !! f
                           = Some EmptyString
                 end) as Hkw.
    { intros f. rewrite emplace_lookup. destruct (_kwargs p !! f); [done|].
      destruct (decide _); auto. }
    assert (∀ f, match _flags p !! f with
                 | Some b => _flags p !! f = Some b
                 | None => _flags p !! f = None ∨ _flags p !! f = Some false
                 end) as Hfl0 by (intros f; destruct (_flags p !! f); auto).
    assert (∀ f, match _kwargs p !! f with
                 | Some s => _kwargs p !! f = Some s
                 | None => _kwargs p !! f = None ∨
                           _kwargs p !! f = Some EmptyString
                 end) as Hkw0 by (intros f; destruct (_kwargs p !! f); auto).
    destruct rest as [|c' rest'].
    + apply Hnext; cbn; first [done | assumption | lia].
    + simpl in Hn. destruct (Ascii.eqb c' colon);
        apply Hnext; cbn; first [done | assumption | lia].
Qed.

(** X14 — [add_flags] only adds: a flag or keyword that is declared keeps
    the value it has, also the value a [parse] gave it; what is newly
    declared is a flag that is false or a keyword without a value; the
    arguments, their number and the file path stay as they are. *)
Theorem add_flags_keeps (p : CLParser) (options : string) :
  _file (add_flags p options) = _file p ∧
  _args (add_flags p options) = _args p ∧
  _num_args (add_flags p options) = _num_args p ∧
  (∀ f b, _flags p !! f = Some b → _flags (add_flags p options) !! f = Some b) ∧
  (∀ f, _flags p !! f = None →
        _flags (add_flags p options) !! f = None ∨
        _flags (add_flags p options) !! f = Some false) ∧
  (∀ f s, _kwargs p !! f = Some s →
          _kwargs (add_flags p options) !! f = Some s) ∧
  (∀ f, _kwargs p !! f = None →
        _kwargs (add_flags p options) !! f = None ∨
        _kwargs (add_flags p options) !! f = Some EmptyString).
Proof.
  unfold add_flags.
  destruct (add_flags_loop_keeps (String.length options) options p)
    as (Hf & Ha & Hn & Hfl & Hkw); [done|].
  repeat split; try done.
  - intros f b Hb. specialize (Hfl f). by rewrite Hb in Hfl.
  - intros f Hb. specialize (Hfl f). by rewrite Hb in Hfl.
  - intros f s Hs. specialize (Hkw f). by rewrite Hs in Hkw.
  - intros f Hs. specialize (Hkw f). by rewrite Hs in Hkw.
Qed.

Lemma declare_keeps_declared (ds : list declaration) (p : CLParser) :
  (∀ f, is_Some (_flags p !! f) → is_Some (_flags (foldl declare p ds) !! f)) ∧
  (∀ f, is_Some (_kwargs p !! f) →
        is_Some (_kwargs (foldl declare p ds) !! f)).
Proof.
  revert p. induction ds as [|d ds IH]; intros p; [done|].
  cbn [foldl]. destruct (IH (declare p d)) as [Hfl Hkw].
  split; intros f [x Hx].
  - apply Hfl. destruct d; cbn; [|by eexists].
    rewrite emplace_lookup, Hx. by eexists.
  - apply Hkw. destruct d; cbn; [by eexists|].
    rewrite emplace_lookup, Hx. by eexists.
Qed.

(** X15 — An option string written as documented is read as documented:
    for declarations of options [c] and keywords [c:], none with the
    character [:] itself, [add_flags] declares them one after the other,
    the options as flags and the keywords as keywords. *)
Theorem add_flags_documented (p : CLParser) (ds : list declaration) :
  Forall (λ d, declaration_char d ≠ colon) ds →
  add_flags p (options_string ds) = foldl declare p ds ∧
  (∀ c, Opt c ∈ ds →
        is_Some (_flags (add_flags p (options_string ds)) !! flag_of c)) ∧
  (∀ c, Kw c ∈ ds →
        is_Some (_kwargs (add_flags p (options_string ds)) !! flag_of c)).
Proof.
  intros Hds.
  assert (add_flags p (options_string ds) = foldl declare p ds) as Heq.
  { unfold add_flags. revert p.
    induction Hds as [|d ds Hd Hds IH]; intros p; [done|].
    destruct d as [c|c]; cbn [options_string add_flags_loop foldl declare].
    - destruct ds as [|d' ds']; [done|].
      assert (∃ c' rest, options_string (d' :: ds') = String c' rest ∧
                c' ≠ colon) as (c' & rest & E & Hc').
      { inversion Hds as [|? ? Hd' _]; subst.
        destruct d'; simpl in *; eauto. }
      rewrite E. rewrite (proj2 (Ascii.eqb_neq _ _) Hc'). rewrite <- E.
      apply IH.
    - rewrite Ascii.eqb_refl. apply IH. }
  split; [exact Heq|]. rewrite Heq. clear Heq Hds.
  split; intros c Hin.
  - revert p. induction ds as [|d ds IH]; intros p;
      [by apply elem_of_nil in Hin|].
    apply elem_of_cons in Hin as [<-|Hin]; [|by apply IH].
    cbn [foldl]. apply declare_keeps_declared. cbn.
    rewrite emplace_lookup. destruct (_flags p !! flag_of c); [by eexists|].
    rewrite decide_True by done. by eexists.
  - revert p. induction ds as [|d ds IH]; intros p;
      [by apply elem_of_nil in Hin|].
    apply elem_of_cons in Hin as [<-|Hin]; [|by apply IH].
    cbn [foldl]. apply declare_keeps_declared. cbn.
    rewrite emplace_lookup. destruct (_kwargs p !! flag_of c); [by eexists|].
    rewrite decide_True by done. by eexists.
Qed.

Lemma add_flags_documented_witness :
  add_flags (mkParser EmptyString [EmptyString] ∅ ∅ 1%Z) "hap:b"
  = foldl declare (mkParser EmptyString [EmptyString] ∅ ∅ 1%Z)
      [Opt "h"; Opt "a"; Kw "p"; Opt "b"].
Proof.
  apply (add_flags_documented (mkParser EmptyString [EmptyString] ∅ ∅ 1%Z)
           [Opt "h"; Opt "a"; Kw "p"; Opt "b"]).
  repeat constructor; discriminate.
Defined.

(** ** Parsing *)

Lemma same_declarations_refl (p : CLParser) : same_declarations p p.
Proof. by repeat split. Qed.

Lemma same_declarations_trans (p q r : CLParser) :
  same_declarations p q → same_declarations q r → same_declarations p r.
Proof.
  intros (Hn & Hfl & Hkw & Ht) (Hn' & Hfl' & Hkw' & Ht').
  split; [congruence|]. split; [|split].
  - intros f. by rewrite Hfl', Hfl.
  - intros f. by rewrite Hkw', Hkw.
  - intros f Hf. by apply Ht', Ht.
Qed.

Lemma declared_true {V : Type} (m : gmap string V) (k : string) :
  declared m k = true ↔ is_Some (m !! k).
Proof. unfold declared. apply bool_decide_eq_true. Qed.

Lemma declared_false {V : Type} (m : gmap string V) (k : string) :
  declared m k = false ↔ m !! k = None.
Proof.
  unfold declared. rewrite bool_decide_eq_false.
  by rewrite <- eq_None_not_Some.
Qed.

Lemma set_flag_same_declarations (p : CLParser) (str : string) :
  declared (_flags p) str = true →
  same_declarations p (with_flags p (<[str := true]> (_flags p))).
Proof.
  intros [b Hb]%declared_true. split; [done|]. cbn. split; [|split].
  - intros f. rewrite lookup_insert.
    destruct (decide (str = f)) as [<-|]; [|done].
    split; intros _; by eexists.
  - done.
  - intros f Hf. rewrite lookup_insert. by destruct (decide (str = f)).
Qed.

Lemma set_kwarg_same_declarations (p : CLParser) (str kwarg : string) :
  declared (_kwargs p) str = true →
  same_declarations p (with_kwargs p (<[str := kwarg]> (_kwargs p))).
Proof.
  intros [b Hb]%declared_true. split; [done|]. cbn. split; [done|]. split.
  - intros f. rewrite lookup_insert.
    destruct (decide (str = f)) as [<-|]; [|done].
    split; intros _; by eexists.
  - done.
Qed.

(** The last loop of [parse] keeps the declarations, the arguments and the
    file path. *)
Lemma parse_options_keeps (n : nat) (argv : list string) (p : CLParser) :
  (length argv ≤ n)%nat →
  same_declarations p (parse_options p argv).2 ∧
  _args (parse_options p argv).2 = _args p ∧
  _file (parse_options p argv).2 = _file p.
Proof.
  revert argv p. induction n as [|n IH]; intros argv p Hn.
  - destruct argv; [|simpl in Hn; lia].
    cbn. split; [apply same_declarations_refl|done].
  - destruct argv as [|str rest];
      [cbn; split; [apply same_declarations_refl|done]|].
    simpl in Hn. cbn [parse_options].
    destruct (declared (_flags p) str) eqn:Hopt.
    + destruct (IH rest (with_flags p (<[str := true]> (_flags p))))
        as (Hd & Ha & Hf); [lia|].
      split; [|done].
      eapply same_declarations_trans; [|exact Hd].
      by apply set_flag_same_declarations.
    + destruct (declared (_kwargs p) str) eqn:Hkw;
        [|cbn; split; [apply same_declarations_refl|done]].
      destruct rest as [|kwarg rest'];
        [cbn; split; [apply same_declarations_refl|done]|].
      destruct (_ || _); [cbn; split; [apply same_declarations_refl|done]|].
      destruct (option_like kwarg);
        [cbn; split; [apply same_declarations_refl|done]|].
      destruct (IH rest' (with_kwargs p (<[str := kwarg]> (_kwargs p))))
        as (Hd & Ha & Hf); [simpl in Hn; lia|].
      split; [|done].
      eapply same_declarations_trans; [|exact Hd].
      by apply set_kwarg_same_declarations.
Qed.

Lemma count_supplied_le (p : CLParser) (argv : list string) :
  (count_supplied p argv ≤ length argv)%nat.
Proof.
  induction argv as [|str rest IH]; [done|]. cbn [count_supplied length].
  destruct (_ || _); [lia|]. destruct (option_like str); lia.
Qed.

(** X16 — [parse] neither declares nor forgets a flag or a keyword and
    never clears a flag: when it returns, with success or with an error,
    the parser has the number of arguments, the flags and the keywords it
    had, and every flag that was set is still set. *)
Theorem parse_keeps_declarations (p p' : CLParser) (argv : list string)
    (i : CLInfo) :
  parse p argv = Some (i, p') →
  same_declarations p p'.
Proof.
  unfold parse. destruct argv as [|file rest]; [done|].
  cbn [_num_args _args _flags _kwargs].
  destruct (decide _); [intros [= <- <-]; by repeat split|].
  destruct (decide _); [intros [= <- <-]; by repeat split|].
  destruct (decide _); [|done].
  intros Hq. injection Hq as Hq.
  match type of Hq with
  | parse_options ?q ?toks = _ =>
      destruct (parse_options_keeps (length toks) toks q (le_n _))
        as (Hd & _ & _);
      rewrite Hq in Hd
  end.
  cbn [snd] in Hd.
  eapply same_declarations_trans; [|exact Hd]. by repeat split.
Qed.

Lemma parse_keeps_declarations_witness :
  ∃ i p', parse example_parser ["prog"; "host"; "-a"; "-z"]%string = Some (i, p') ∧
          success i = false ∧ same_declarations example_parser p'.
Proof.
  eexists _, _. split; [reflexivity|]. split; [reflexivity|].
  eapply (parse_keeps_declarations example_parser _
            ["prog"; "host"; "-a"; "-z"]%string).
  reflexivity.
Defined.

Lemma count_supplied_ext (p q : CLParser) (argv : list string) :
  _flags p = _flags q → _kwargs p = _kwargs q →
  count_supplied p argv = count_supplied q argv.
Proof.
  intros Hfl Hkw. induction argv as [|str rest IH]; [done|].
  cbn [count_supplied]. by rewrite Hfl, Hkw, IH.
Qed.

Lemma count_supplied_lookup (p : CLParser) (argv : list string) (k : nat) :
  (k < count_supplied p argv)%nat →
  ∃ str, argv !! k = Some str ∧ plain p str.
Proof.
  revert k. induction argv as [|str rest IH]; intros k Hk;
    [simpl in Hk; lia|].
  cbn [count_supplied] in Hk.
  destruct (declared (_flags p) str) eqn:Hopt; [simpl in Hk; lia|].
  destruct (declared (_kwargs p) str) eqn:Hkw; [simpl in Hk; lia|].
  cbn [orb] in Hk.
  destruct (option_like str) eqn:Hlike; [lia|].
  destruct k as [|k]; [by exists str|].
  apply IH. lia.
Qed.

Lemma count_supplied_plain (p : CLParser) (args tail : list string) :
  Forall (plain p) args →
  count_supplied p (args ++ tail)
  = (length args + count_supplied p tail)%nat.
Proof.
  induction 1 as [|str args (Hopt & Hkw & Hlike) _ IH]; [done|].
  cbn [app count_supplied length]. by rewrite Hopt, Hkw, Hlike, IH.
Qed.

(** [parse] when the number of arguments is right. *)
Lemma parse_counted (p : CLParser) (file : string) (rest : list string) :
  Z.of_nat (count_supplied p rest) = _num_args p →
  args_allocated p →
  parse p (file :: rest)
  = Some (parse_options
            (mkParser file
               (take (count_supplied p rest) rest
                ++ drop (count_supplied p rest) (_args p))
               (_flags p) (_kwargs p) (_num_args p))
            (drop (count_supplied p rest) rest)).
Proof.
  intros Hcount Halloc. unfold parse, args_allocated in *.
  cbn [_num_args _args _flags _kwargs].
  rewrite (count_supplied_ext _ p rest) by done.
  rewrite decide_False by lia. rewrite decide_False by lia.
  by rewrite decide_True by lia.
Qed.

(** X17 — The array of arguments is always large enough: the constructors
    and [set_num_args] allocate at least as many elements as there are
    mandatory arguments, and [add_flags], [get_opt], [get_kwarg] and
    [parse] keep it so. *)
Theorem args_always_allocated (p : CLParser) :
  args_allocated CLParser0 ∧
  (∀ num_args flags q, CLParser2 num_args flags = Some q → args_allocated q) ∧
  (∀ num_args, args_allocated (set_num_args p num_args)) ∧
  (args_allocated p →
   (∀ options, args_allocated (add_flags p options)) ∧
   (∀ flag invert, args_allocated (get_opt p flag invert).2) ∧
   (∀ (T : Type) (convert : string → T) flag default_value,
      args_allocated (get_kwarg convert p flag default_value).2) ∧
   (∀ argv i p', parse p argv = Some (i, p') → args_allocated p')).
Proof.
  unfold args_allocated. split; [cbn; lia|]. split; [|split].
  - intros num_args flags q. unfold CLParser2.
    destruct (decide _) as [Hn|]; [|done]. intros [= <-].
    destruct (add_flags_loop_keeps (String.length flags) flags
                (mkParser EmptyString
                   (replicate (Z.to_nat num_args) EmptyString) ∅ ∅ num_args)
                (le_n _)) as (_ & Ha & Hna & _).
    unfold add_flags. rewrite Ha, Hna. cbn. rewrite length_replicate. lia.
  - intros num_args. unfold set_num_args. cbn. rewrite length_replicate.
    destruct (decide _); lia.
  - intros Hp. split; [|split; [|split]].
    + intros options.
      destruct (add_flags_loop_keeps (String.length options) options p
                  (le_n _)) as (_ & Ha & Hna & _).
      unfold add_flags. by rewrite Ha, Hna.
    + intros flag invert. unfold get_opt. by destruct (_flags p !! flag).
    + intros T convert flag default_value. unfold get_kwarg.
      destruct (_kwargs p !! flag); by destruct (negb _).
    + intros argv i p'. unfold parse. destruct argv as [|file rest]; [done|].
      cbn [_num_args _args _flags _kwargs].
      destruct (decide _); [by intros [= <- <-]|].
      destruct (decide _); [by intros [= <- <-]|].
      destruct (decide _) as [Hle|]; [|done].
      intros Hq. injection Hq as Hq.
      match type of Hq with
      | parse_options ?q ?toks = _ =>
          destruct (parse_options_keeps (length toks) toks q (le_n _))
            as ((Hna & _) & Ha & _);
          rewrite Hq in Hna, Ha
      end.
      cbn [snd _num_args _args] in Hna, Ha. rewrite Hna, Ha.
      rewrite length_app, length_take, length_drop.
      pose proof (count_supplied_le
                    (mkParser file (_args p) (_flags p) (_kwargs p)
                       (_num_args p)) rest).
      lia.
Qed.

(** X18 — On a parser whose array is allocated, so on every parser the
    constructors and the methods lead to, [parse] returns for every
    command line that has the program path: it never writes outside the
    array, the path is what [get_file] returns afterwards, and the array
    keeps its length. *)
Theorem parse_returns (p : CLParser) (file : string) (rest : list string) :
  args_allocated p →
  ∃ i p', parse p (file :: rest) = Some (i, p') ∧
          get_file p' = file ∧
          length (_args p') = length (_args p).
Proof.
  intros Halloc. unfold parse, args_allocated in *.
  cbn [_num_args _args _flags _kwargs].
  destruct (decide _); [by eexists _, _|].
  destruct (decide _); [by eexists _, _|].
  pose proof (count_supplied_le
                (mkParser file (_args p) (_flags p) (_kwargs p) (_num_args p))
                rest) as Hle.
  rewrite decide_True by lia.
  match goal with
  | |- context [parse_options ?q ?toks] =>
      destruct (parse_options_keeps (length toks) toks q (le_n _))
        as (_ & Ha & Hf);
      destruct (parse_options q toks) as [i p'] eqn:E
  end.
  cbn [snd _args _file] in Ha, Hf.
  exists i, p'. split; [done|]. split; [done|].
  rewrite Ha, length_app, length_take, length_drop. lia.
Qed.

Lemma parse_returns_witness :
  ∃ i p', parse example_parser ["prog"; "host"; "-p"; "80"]%string
          = Some (i, p') ∧
          get_file p' = "prog"%string ∧
          length (_args p') = length (_args example_parser).
Proof.
  apply (parse_returns example_parser "prog" ["host"; "-p"; "80"]%string).
  unfold args_allocated. vm_compute. discriminate.
Defined.

(** X19 — After a [parse] that reports success the mandatory arguments are
    there: exactly [_num_args] tokens follow the program path before the
    first option, each of them neither a declared flag or keyword nor of
    the form of an option, and [get_arg] with the conversion to a string
    returns them by their index. *)
Theorem parse_success_args (p p' : CLParser) (file : string)
    (rest : list string) (i : CLInfo) :
  parse p (file :: rest) = Some (i, p') →
  success i = true →
  _num_args p = Z.of_nat (count_supplied p rest) ∧
  ∀ k, (k < count_supplied p rest)%nat →
    ∃ str, rest !! k = Some str ∧ plain p str ∧
           get_arg (λ s, s) p' (Z.of_nat k) = Some str.
Proof.
  unfold parse. cbn [_num_args _args _flags _kwargs].
  rewrite (count_supplied_ext _ p rest) by done.
  destruct (decide _); [by intros [= <- <-]|].
  destruct (decide _); [by intros [= <- <-]|].
  destruct (decide _) as [Hle|]; [|done].
  intros Hq Hsuccess. injection Hq as Hq. split; [lia|].
  intros k Hk.
  destruct (count_supplied_lookup p rest k Hk) as (str & Hstr & Hplain).
  exists str. split; [done|]. split; [done|].
  match type of Hq with
  | parse_options ?q ?toks = _ =>
      destruct (parse_options_keeps (length toks) toks q (le_n _))
        as (_ & Ha & _);
      rewrite Hq in Ha
  end.
  cbn [snd _args] in Ha. unfold get_arg.
  rewrite decide_True by lia. rewrite Nat2Z.id, Ha.
  rewrite lookup_app_l by (rewrite length_take; pose proof (count_supplied_le p rest); lia).
  rewrite lookup_take_lt by done. by rewrite Hstr.
Qed.

Lemma parse_success_args_witness :
  ∃ p', parse example_parser ["prog"; "host"; "-p"; "80"]%string
        = Some (mkInfo true "Parse successful.", p') ∧
        get_arg (λ s, s) p' 0 = Some "host"%string.
Proof.
  pose (p' := match parse example_parser
                      ["prog"; "host"; "-p"; "80"]%string with
              | Some (_, q) => q
              | None => example_parser
              end).
  assert (parse example_parser ["prog"; "host"; "-p"; "80"]%string
          = Some (mkInfo true "Parse successful.", p')) as E
    by (vm_compute; reflexivity).
  exists p'. split; [exact E|].
  destruct (parse_success_args example_parser p' "prog"
              ["host"; "-p"; "80"]%string _ E eq_refl) as [_ Hargs].
  destruct (Hargs 0%nat) as (str & Hstr & _ & Hget);
    [vm_compute; lia|].
  injection Hstr as <-. exact Hget.
Defined.

(** ** Command lines that are accepted, and that are not *)

Lemma set_flags_lookup (flags : gmap string bool) (opts : list string)
    (f : string) :
  foldl (λ m g, <[g := true]> m) flags opts !! f
  = if decide (f ∈ opts) then Some true else flags !! f.
Proof.
  revert flags. induction opts as [|g opts IH]; intros flags.
  - cbn. rewrite decide_False; [done|]. apply not_elem_of_nil.
  - cbn [foldl]. rewrite IH.
    destruct (decide (f ∈ opts)) as [Hin|Hout].
    + rewrite decide_True; [done|]. by right.
    + rewrite lookup_insert. destruct (decide (g = f)) as [->|Hne].
      * rewrite decide_True; [done|]. by left.
      * rewrite decide_False; [done|].
        intros [?|?]%elem_of_cons; congruence.
Qed.

(** The last loop of [parse] over declared flags sets them. *)
Lemma parse_options_flags (p : CLParser) (opts rest : list string) :
  Forall (λ f, declared (_flags p) f = true) opts →
  parse_options p (opts ++ rest)
  = parse_options
      (with_flags p (foldl (λ m g, <[g := true]> m) (_flags p) opts)) rest.
Proof.
  revert p. induction opts as [|f opts IH]; intros p Hopts.
  - cbn [app foldl]. by destruct p.
  - inversion Hopts as [|? ? Hf Hopts']; subst.
    cbn [app parse_options foldl]. rewrite Hf.
    rewrite IH; [done|].
    cbn [with_flags _flags]. eapply Forall_impl; [exact Hopts'|].
    intros g Hg. apply declared_true. apply declared_true in Hg as [b Hb].
    rewrite lookup_insert. destruct (decide (f = g)); by eexists.
Qed.

Lemma parse_options_flags_only (p : CLParser) (opts : list string) :
  Forall (λ f, declared (_flags p) f = true) opts →
  parse_options p opts
  = (mkInfo true "Parse successful.",
     with_flags p (foldl (λ m g, <[g := true]> m) (_flags p) opts)).
Proof.
  intros Hopts. rewrite <- (app_nil_r opts) at 1.
  by rewrite parse_options_flags.
Qed.

Lemma count_supplied_declared (p : CLParser) (opts : list string) :
  Forall (λ f, declared (_flags p) f = true) opts →
  count_supplied p opts = 0%nat.
Proof.
  intros Hopts. destruct opts as [|f opts]; [done|].
  inversion Hopts as [|? ? Hf _]; subst. cbn [count_supplied].
  by rewrite Hf.
Qed.

(** X20 — A command line of the program path, the mandatory arguments and
    declared flags is accepted: [parse] reports success, and afterwards
    [get_opt] returns true (false, when inverted) for each flag of the
    command line, every other flag has the value it had, and the keywords
    are as they were. *)
Theorem parse_flags (p : CLParser) (file : string) (args opts : list string) :
  args_allocated p →
  Z.of_nat (length args) = _num_args p →
  Forall (plain p) args →
  Forall (λ f, declared (_flags p) f = true) opts →
  ∃ p', parse p (file :: args ++ opts)
        = Some (mkInfo true "Parse successful.", p') ∧
        (∀ f invert, f ∈ opts → (get_opt p' f invert).1 = negb invert) ∧
        (∀ f, f ∉ opts → _flags p' !! f = _flags p !! f) ∧
        _kwargs p' = _kwargs p.
Proof.
  intros Halloc Hnum Hargs Hopts.
  assert (count_supplied p (args ++ opts) = length args) as Hcount.
  { rewrite count_supplied_plain, count_supplied_declared by done. lia. }
  rewrite parse_counted by (done || lia). rewrite Hcount.
  rewrite drop_app_length.
  rewrite parse_options_flags_only by done.
  eexists. split; [reflexivity|].
  unfold get_opt, with_flags. cbn [_flags _kwargs]. split; [|split; [|done]].
  - intros f invert Hin.
    rewrite set_flags_lookup, decide_True by done. done.
  - intros f Hout. by rewrite set_flags_lookup, decide_False.
Qed.

Lemma parse_flags_witness :
  ∃ p', parse example_parser ["prog"; "host"; "-a"; "-b"]%string
        = Some (mkInfo true "Parse successful.", p') ∧
        (get_opt p' "-a" false).1 = true ∧
        (get_opt p' "-b" true).1 = false ∧
        _flags p' !! "-h"%string = Some false.
Proof.
  destruct (parse_flags example_parser "prog" ["host"%string]
              ["-a"; "-b"]%string) as (p' & Hparse & Hset & Hkeep & _).
  - unfold args_allocated. vm_compute. discriminate.
  - reflexivity.
  - repeat constructor.
  - repeat constructor.
  - exists p'. split; [exact Hparse|]. split; [|split].
    + apply (Hset "-a"%string false). by left.
    + apply (Hset "-b"%string true). right. by left.
    + rewrite Hkeep; [reflexivity|].
      intros Hin. repeat (apply elem_of_cons in Hin as [Hin|Hin];
                          [discriminate Hin|]).
      by apply elem_of_nil in Hin.
Defined.

(** X21 — A keyword takes the token that follows it: on a command line of
    the program path, the mandatory arguments, a declared keyword, a
    token that is neither declared nor of the form of an option, and
    declared flags, [parse] reports success and the keyword has that
    token as its value; [get_kwarg] then returns its conversion, but the
    default value when the token is the empty string. *)
Theorem parse_kwarg (p : CLParser) (file : string) (args opts : list string)
    (k v : string) :
  args_allocated p →
  Z.of_nat (length args) = _num_args p →
  Forall (plain p) args →
  declared (_flags p) k = false →
  declared (_kwargs p) k = true →
  plain p v →
  Forall (λ f, declared (_flags p) f = true) opts →
  ∃ p', parse p (file :: args ++ k :: v :: opts)
        = Some (mkInfo true "Parse successful.", p') ∧
        _kwargs p' !! k = Some v ∧
        ∀ (T : Type) (convert : string → T) (default_value : T),
          (get_kwarg convert p' k default_value).1
          = if String.eqb v EmptyString then default_value else convert v.
Proof.
  intros Halloc Hnum Hargs Hflag Hkw (Hv1 & Hv2 & Hv3) Hopts.
  assert (count_supplied p (args ++ k :: v :: opts) = length args) as Hcount.
  { rewrite count_supplied_plain by done. cbn [count_supplied].
    rewrite Hflag, Hkw. cbn. lia. }
  rewrite parse_counted by (done || lia). rewrite Hcount.
  rewrite drop_app_length.
  cbn [parse_options _flags _kwargs].
  rewrite Hflag, Hkw, Hv1, Hv2, Hv3. cbn [orb].
  rewrite parse_options_flags_only by done.
  eexists. split; [reflexivity|].
  unfold get_kwarg, with_flags, with_kwargs. cbn [_flags _kwargs].
  assert (<[k := v]> (_kwargs p) !! k = Some v) as Hk
    by apply lookup_insert_eq.
  split; [exact Hk|].
  intros T convert default_value.
  rewrite Hk. by destruct (String.eqb v EmptyString).
Qed.

Lemma parse_kwarg_witness :
  ∃ p', parse example_parser ["prog"; "host"; "-p"; "80"; "-a"]%string
        = Some (mkInfo true "Parse successful.", p') ∧
        (get_kwarg (λ s, s) p' "-p" "5050"%string).1 = "80"%string.
Proof.
  destruct (parse_kwarg example_parser "prog" ["host"%string]
              ["-a"%string] "-p" "80")
    as (p' & Hparse & _ & Hget).
  - unfold args_allocated. vm_compute. discriminate.
  - reflexivity.
  - repeat constructor.
  - reflexivity.
  - reflexivity.
  - repeat constructor.
  - repeat constructor.
  - exists p'. split; [exact Hparse|]. by rewrite Hget.
Defined.

(** X22 — A token that is not declared is never accepted: on a command
    line of the program path, the mandatory arguments, declared flags and
    then a token that is neither a declared flag nor a declared keyword,
    whatever follows, [parse] reports failure: an unknown option when the
    token has the form of an option or follows a flag, too many
    arguments when it follows the arguments and has not that form. *)
Theorem parse_rejects_undeclared (p : CLParser) (file : string)
    (args opts : list string) (str : string) (tail : list string) :
  args_allocated p →
  Z.of_nat (length args) = _num_args p →
  Forall (plain p) args →
  Forall (λ f, declared (_flags p) f = true) opts →
  declared (_flags p) str = false →
  declared (_kwargs p) str = false →
  ∃ i p', parse p (file :: args ++ opts ++ str :: tail) = Some (i, p') ∧
          success i = false ∧
          info i = (if option_like str || negb (bool_decide (opts = []))
                    then unknown_option str else too_many).
Proof.
  intros Halloc Hnum Hargs Hopts Hflag Hkw.
  destruct (option_like str || negb (bool_decide (opts = [])))
    eqn:Hcase.
  - assert (count_supplied p (args ++ opts ++ str :: tail) = length args)
      as Hcount.
    { rewrite count_supplied_plain by done.
      destruct opts as [|f opts].
      - cbn [app count_supplied]. rewrite Hflag, Hkw. cbn [orb].
        cbn in Hcase. rewrite orb_false_r in Hcase. rewrite Hcase. lia.
      - inversion Hopts as [|? ? Hf _]; subst.
        cbn [app count_supplied]. rewrite Hf. cbn. lia. }
    rewrite parse_counted by (done || lia). rewrite Hcount.
    rewrite drop_app_length, parse_options_flags by done.
    cbn [parse_options with_flags _flags _kwargs].
    assert (declared (foldl (λ m g, <[g := true]> m) (_flags p) opts) str
            = false) as ->.
    { apply declared_false. rewrite set_flags_lookup.
      destruct (decide (str ∈ opts)) as [Hin|]; [|by apply declared_false].
      rewrite Forall_forall in Hopts. specialize (Hopts str Hin). congruence. }
    rewrite Hkw. by eexists _, _.
  - apply orb_false_elim in Hcase as [Hlike Hnil].
    apply negb_false_iff, bool_decide_eq_true in Hnil. subst opts.
    cbn [app]. unfold parse. cbn [_num_args _args _flags _kwargs].
    rewrite (count_supplied_ext _ p) by done.
    rewrite count_supplied_plain by done. cbn [count_supplied].
    rewrite Hflag, Hkw, Hlike. cbn [orb].
    rewrite decide_False by lia. rewrite decide_True by lia.
    by eexists _, _.
Qed.

Lemma parse_rejects_undeclared_witness :
  ∃ i p', parse example_parser ["prog"; "host"; "-a"; "-z"; "-b"]%string
          = Some (i, p') ∧
          success i = false ∧ info i = unknown_option "-z".
Proof.
  destruct (parse_rejects_undeclared example_parser "prog" ["host"%string]
              ["-a"%string] "-z" ["-b"%string])
    as (i & p' & Hparse & Hfail & Hinfo).
  - unfold args_allocated. vm_compute. discriminate.
  - reflexivity.
  - repeat constructor.
  - repeat constructor.
  - reflexivity.
  - reflexivity.
  - exists i, p'. split; [exact Hparse|]. split; [exact Hfail|]. exact Hinfo.
Defined.
